(** * get_sys_lang: the text catalog [i18n_lang] and the locale resolver
      [get_sys_lang], embedded from the C++ headers.

    [std::unordered_map] is a [gmap]; [std::string] is a list of [ascii]
    characters; [std::u32string] is a list of code points.  Member functions
    that mutate the catalog return the catalog after the call (they return
    [*this] in the source). *)

From Stdlib Require Import ZArith List Ascii String.
From stdpp Require Import gmap list fin_maps.

Local Open Scope Z_scope.

(** ** [std::unordered_map] operations used by the catalog *)

Section unordered_map.
Context {K : Type} `{Countable K} {V : Type}.

(** [m.find(k)]: [Some v] is an iterator to the element, [None] is
    [m.end()].  The map is not touched. *)
Definition um_find (m : gmap K V) (k : K) : option V := m !! k.

(** [m[k]]: when [k] is absent a value-initialised element is inserted
    first; the map after that step. *)
Definition um_subscript (init : V) (m : gmap K V) (k : K) : gmap K V :=
  match m !! k with
  | Some _ => m
  | None => <[k := init]> m
  end.

(** [m[k]] used as an lvalue: the element is created when absent and then
    changed in place through the reference. *)
Definition um_at (init : V) (m : gmap K V) (k : K) (f : V → V) : gmap K V :=
  alter f k (um_subscript init m k).

(** [m.insert({k, v})]: nothing happens when [k] is already a key. *)
Definition um_insert (m : gmap K V) (k : K) (v : V) : gmap K V :=
  match m !! k with
  | Some _ => m
  | None => <[k := v]> m
  end.

(** [m.insert(first, last)] over the elements of another map. *)
Definition um_insert_range (m src : gmap K V) : gmap K V :=
  map_fold (λ k v acc, um_insert acc k v) m src.
End unordered_map.

(** ** The class template [i18n_lang] *)

Section i18n_lang.
(** Template parameters.  [Inhabited TextType] stands for [TextType()],
    the value [operator[]] creates. *)
Context {LangType : Type} `{Countable LangType}.
Context {TextIdType : Type} `{Countable TextIdType}.
Context {TextType : Type} `{Inhabited TextType}.
Variable DefaultErrorText : TextType.

Record i18n_lang : Type := Build_i18n_lang {
  default_lang_ : LangType;
  texts_ : gmap LangType (gmap TextIdType TextType)
}.

(** [explicit i18n_lang(lang_t default_lang)] *)
Definition i18n_lang_ctor (default_lang : LangType) : i18n_lang :=
  {| default_lang_ := default_lang; texts_ := ∅ |}.

(** [explicit i18n_lang(lang_t default_lang, lang_text_map texts)] *)
Definition i18n_lang_ctor_texts (default_lang : LangType)
    (texts : gmap LangType (gmap TextIdType TextType)) : i18n_lang :=
  {| default_lang_ := default_lang; texts_ := texts |}.

(** [texts_[lang][text_id] = std::move(text); return *this;] *)
Definition set_text (c : i18n_lang) (lang : LangType)
    (text_id : TextIdType) (text : TextType) : i18n_lang :=
  {| default_lang_ := default_lang_ c;
     texts_ := um_at ∅ (texts_ c) lang
                 (λ bucket, um_at inhabitant bucket text_id (λ _, text)) |}.

(** [texts_[lang].insert(texts.begin(), texts.end()); return *this;] *)
Definition set_texts (c : i18n_lang) (lang : LangType)
    (texts : gmap TextIdType TextType) : i18n_lang :=
  {| default_lang_ := default_lang_ c;
     texts_ := um_at ∅ (texts_ c) lang
                 (λ bucket, um_insert_range bucket texts) |}.

(** What a returned [const text_t &] refers to: the mapped value of an
    element of a bucket, or the function-local static [error_text]. *)
Inductive text_ref : Type :=
| entry_ref (lang : LangType) (text_id : TextIdType) (text : TextType)
| error_text_ref.

(** [get_default_error_text()], a static member: no catalog is involved. *)
Definition get_default_error_text : TextType := DefaultErrorText.

Definition ref_value (r : text_ref) : TextType :=
  match r with
  | entry_ref _ _ text => text
  | error_text_ref => get_default_error_text
  end.

(** [get_text], a [const] member, with the reference it returns. *)
Definition get_text_ref (c : i18n_lang) (lang : LangType)
    (text_id : TextIdType) : text_ref :=
  let fallback :=
    match um_find (texts_ c) (default_lang_ c) with
    | Some default_bucket =>
        match um_find default_bucket text_id with
        | Some text => entry_ref (default_lang_ c) text_id text
        | None => error_text_ref
        end
    | None => error_text_ref
    end in
  match um_find (texts_ c) lang with
  | Some bucket =>
      match um_find bucket text_id with
      | Some text => entry_ref lang text_id text
      | None => fallback
      end
  | None => fallback
  end.

Definition get_text (c : i18n_lang) (lang : LangType)
    (text_id : TextIdType) : TextType :=
  ref_value (get_text_ref c lang text_id).

(** The public surface as calls on a catalog, and one step of a client
    that issues them. *)
Inductive call : Type :=
| SetText (lang : LangType) (text_id : TextIdType) (text : TextType)
| SetTexts (lang : LangType) (texts : gmap TextIdType TextType)
| GetText (lang : LangType) (text_id : TextIdType)
| GetDefaultErrorText.

Inductive reply : Type :=
| ReplySelf
| ReplyText (text : TextType).

Definition exec (op : call) (c : i18n_lang) : i18n_lang * reply :=
  match op with
  | SetText lang text_id text => (set_text c lang text_id text, ReplySelf)
  | SetTexts lang texts => (set_texts c lang texts, ReplySelf)
  | GetText lang text_id => (c, ReplyText (get_text c lang text_id))
  | GetDefaultErrorText => (c, ReplyText get_default_error_text)
  end.

Fixpoint run (ops : list call) (c : i18n_lang) : i18n_lang :=
  match ops with
  | [] => c
  | op :: ops' => run ops' (fst (exec op c))
  end.

(** The text stored under [(lang, text_id)]: [lang] has a bucket and the
    bucket has the key [text_id]. *)
Definition stored (c : i18n_lang) (lang : LangType)
    (text_id : TextIdType) : option TextType :=
  match texts_ c !! lang with
  | Some bucket => bucket !! text_id
  | None => None
  end.
End i18n_lang.

Arguments i18n_lang LangType {_ _} TextIdType {_ _} TextType.
Arguments text_ref : clear implicits.
Arguments call LangType TextIdType {_ _} TextType.
Arguments reply : clear implicits.

(** ** The default instantiation [i18n_lang<>] *)

(** [std::u32string]: a sequence of [char32_t] code points. *)
Definition u32string : Type := list N.
(** [uint64_t] keys; the catalog does no arithmetic on them. *)
Definition uint64_t : Type := N.

(** A [U"..."] literal of ASCII characters. *)
Definition U (s : string) : u32string :=
  map N_of_ascii (list_ascii_of_string s).

Definition DefaultErrorText_default : u32string := U "TEXT_NOT_FOUND".

(** Members of [i18n_lang<>], the instantiation with every template argument
    defaulted. *)
Module i18n_lang_default.
Definition catalog : Type := i18n_lang u32string uint64_t u32string.

Definition get_default_error_text : u32string :=
  get_default_error_text DefaultErrorText_default.

Definition get_text (c : catalog) (lang : u32string) (text_id : uint64_t)
    : u32string :=
  get_text DefaultErrorText_default c lang text_id.

(** A catalog with default language "en-US" holding "Hello" under
    ("en-US", 1) and "Bonjour" under ("fr-FR", 1). *)
Definition hello_catalog : catalog :=
  set_text
    (set_text (i18n_lang_ctor (U "en-US")) (U "en-US") 1%N (U "Hello"))
    (U "fr-FR") 1%N (U "Bonjour").
End i18n_lang_default.

(** ** [std::string] operations used by the locale resolver *)

Definition std_string : Type := list ascii.

(** A narrow string literal. *)
Definition lit (s : string) : std_string := list_ascii_of_string s.

(** [std::replace(s.begin(), s.end(), old, new)] *)
Definition replace_char (old new : ascii) (s : std_string) : std_string :=
  map (λ c, if Ascii.eqb c old then new else c) s.

(** [s.find(ch)]: the index of the first [ch]; [None] is [npos]. *)
Fixpoint find_char (ch : ascii) (s : std_string) : option nat :=
  match s with
  | [] => None
  | c :: s' => if Ascii.eqb c ch then Some O else S <$> find_char ch s'
  end.

(** [s.find(ch, pos)] *)
Definition find_char_from (ch : ascii) (pos : nat) (s : std_string) : option nat :=
  (λ i, (pos + i)%nat) <$> find_char ch (drop pos s).

(** [s.erase(pos)]: drops everything from index [pos]. *)
Definition erase_from (pos : nat) (s : std_string) : std_string := take pos s.

(** [s.substr(0, len)] *)
Definition substr0 (len : nat) (s : std_string) : std_string := take len s.

(** [std::transform(s.begin() + first, s.begin() + last, s.begin() + first, f)] *)
Definition transform_range (first last : nat) (f : ascii → ascii)
    (s : std_string) : std_string :=
  take first s ++ map f (take (last - first) (drop first s)) ++ drop last s.

(** [s.resize(n)]: truncates, or pads with NUL characters. *)
Definition resize (n : nat) (s : std_string) : std_string :=
  take n s ++ repeat "000"%char (n - length s).

(** [::tolower] and [::toupper] in the "C" locale the program starts in:
    only the letters A-Z and a-z change. *)
Definition tolower (c : ascii) : ascii :=
  let n := nat_of_ascii c in
  if (65 <=? n)%nat && (n <=? 90)%nat then ascii_of_nat (n + 32) else c.

Definition toupper (c : ascii) : ascii :=
  let n := nat_of_ascii c in
  if (97 <=? n)%nat && (n <=? 122)%nat then ascii_of_nat (n - 32) else c.

(** ** [get_sys_lang] *)

Definition DEFAULT_LANGUAGE : std_string := lit "en-US".

(** *** Windows branch.  What the two system calls answer. *)
Record Win32 : Type := {
  (** return value of [GetUserDefaultLocaleName] *)
  GetUserDefaultLocaleName : Z;
  (** return value of [WideCharToMultiByte] with a null output buffer *)
  WideCharToMultiByte_size : Z;
  (** return value of the converting [WideCharToMultiByte] call *)
  WideCharToMultiByte_written : Z;
  (** the bytes that call stores through [result.data()] *)
  WideCharToMultiByte_bytes : std_string
}.

Definition get_sys_lang_win32 (os : Win32) : std_string :=
  if GetUserDefaultLocaleName os =? 0 then DEFAULT_LANGUAGE
  else
    let size := WideCharToMultiByte_size os in
    if size <=? 0 then DEFAULT_LANGUAGE
    else
      let result := repeat "000"%char (Z.to_nat size) in
      let result :=
        take (length result) (WideCharToMultiByte_bytes os)
        ++ drop (length (WideCharToMultiByte_bytes os)) result in
      let written := WideCharToMultiByte_written os in
      if written <=? 0 then DEFAULT_LANGUAGE
      else resize (Z.to_nat (written - 1)) result.

(** *** Apple branch *)
Record CoreFoundation : Type := {
  (** [CFLocaleCopyCurrent()] returned a locale (not null) *)
  CFLocaleCopyCurrent : bool;
  (** [CFStringGetCString]: [None] when it returns false, otherwise the C
      string it left in the buffer *)
  CFStringGetCString : option std_string
}.

(** Lines 62-73: the statements run when the conversion succeeded. *)
Definition apple_normalize (buffer : std_string) : std_string :=
  let result := buffer in
  let result := replace_char "_" "-" result in
  match find_char "-" result with
  | Some first_dash =>
      match find_char_from "-" (first_dash + 1) result with
      | Some second_dash => erase_from second_dash result
      | None => result
      end
  | None => result
  end.

Definition get_sys_lang_apple (os : CoreFoundation) : std_string :=
  if negb (CFLocaleCopyCurrent os) then DEFAULT_LANGUAGE
  else
    let result := DEFAULT_LANGUAGE in
    match CFStringGetCString os with
    | Some buffer => apple_normalize buffer
    | None => result
    end.

(** *** POSIX branch *)

(** [std::getenv]: [None] is the null pointer. *)
Definition environment : Type := string → option std_string.

(** [!lang || lang[0] == '\0'] *)
Definition null_or_empty (lang : option std_string) : bool :=
  match lang with
  | None => true
  | Some [] => true
  | Some (_ :: _) => false
  end.

(** Lines 82-88; [None] is the early [return DEFAULT_LANGUAGE]. *)
Definition posix_env_value (getenv : environment) : option std_string :=
  let lang := getenv "LC_ALL"%string in
  let lang := if null_or_empty lang then getenv "LC_MESSAGES"%string else lang in
  let lang := if null_or_empty lang then getenv "LANG"%string else lang in
  if null_or_empty lang then None else lang.

(** Lines 90-116: from [std::string result = lang] to [return result]. *)
Definition posix_normalize (lang : std_string) : std_string :=
  let result := lang in
  if bool_decide (result = lit "C") || bool_decide (result = lit "POSIX")
  then DEFAULT_LANGUAGE
  else
    let result := replace_char "_" "-" result in
    let dash_pos := find_char "-" result in
    let result :=
      match dash_pos with
      | Some dash_pos =>
          if (dash_pos + 1 <? length result)%nat
          then
            let result := transform_range 0 dash_pos tolower result in
            transform_range (dash_pos + 1) (length result) toupper result
          else result
      | None => result
      end in
    let result :=
      match find_char "." result with
      | Some dotPos => substr0 dotPos result
      | None => result
      end in
    let result :=
      match find_char "@" result with
      | Some atPos => substr0 atPos result
      | None => result
      end in
    result.

Definition get_sys_lang_posix (getenv : environment) : std_string :=
  match posix_env_value getenv with
  | None => DEFAULT_LANGUAGE
  | Some lang => posix_normalize lang
  end.

(** *** The platform switch *)

(** The predefined macros the [#if] chain tests. *)
Record target : Type := {
  _WIN32 : bool;
  __APPLE__ : bool;
  __linux__ : bool;
  __unix__ : bool;
  __ANDROID__ : bool
}.

(** What the host answers to the calls of each branch. *)
Record host : Type := {
  win32 : Win32;
  core_foundation : CoreFoundation;
  getenv : environment
}.

Definition get_sys_lang (t : target) (h : host) : std_string :=
  if _WIN32 t then get_sys_lang_win32 (win32 h)
  else if __APPLE__ t then get_sys_lang_apple (core_foundation h)
  else if __linux__ t || __unix__ t || __ANDROID__ t
       then get_sys_lang_posix (getenv h)
  else DEFAULT_LANGUAGE.

(** ** The normalization rules as the specification words them

    These follow the prose of the specification, not the source; the
    theorems below compare them with [posix_normalize] and
    [apple_normalize]. *)

(** [s] cut at the first [ch]: the characters before it and the characters
    after it; [None] when [ch] does not occur. *)
Fixpoint split_first (ch : ascii) (s : std_string)
    : option (std_string * std_string) :=
  match s with
  | [] => None
  | c :: s' =>
      if Ascii.eqb c ch then Some ([], s')
      else match split_first ch s' with
           | Some (before, after) => Some (c :: before, after)
           | None => None
           end
  end.

(** "strip any suffix starting at the first [ch]" *)
Fixpoint strip_suffix_at (ch : ascii) (s : std_string) : std_string :=
  match s with
  | [] => []
  | c :: s' => if Ascii.eqb c ch then [] else c :: strip_suffix_at ch s'
  end.

(** "replace underscores with hyphens" *)
Definition underscores_to_hyphens (s : std_string) : std_string :=
  map (λ c, if Ascii.eqb c "_" then "-"%char else c) s.

(** "lowercase all characters before the first hyphen and uppercase all
    characters after it" *)
Definition case_subtags_spec (s : std_string) : std_string :=
  match split_first "-" s with
  | Some (language, region) => map tolower language ++ "-"%char :: map toupper region
  | None => s
  end.

(** The POSIX-class rule, sentence by sentence. *)
Definition posix_normalize_spec (value : std_string) : std_string :=
  if bool_decide (value = lit "C") || bool_decide (value = lit "POSIX")
  then lit "en-US"
  else
    strip_suffix_at "@" (strip_suffix_at "."
      (case_subtags_spec (underscores_to_hyphens value))).

(** The case rule with the condition the source puts on it: a hyphen is
    present and at least one character follows it. *)
Definition case_subtags_guarded (s : std_string) : std_string :=
  match split_first "-" s with
  | Some (language, c :: region) =>
      map tolower language ++ "-"%char :: map toupper (c :: region)
  | _ => s
  end.

Definition posix_normalize_guarded_spec (value : std_string) : std_string :=
  if bool_decide (value = lit "C") || bool_decide (value = lit "POSIX")
  then lit "en-US"
  else
    strip_suffix_at "@" (strip_suffix_at "."
      (case_subtags_guarded (underscores_to_hyphens value))).

(** The Apple-class rule: "if the resulting string contains a second hyphen,
    everything from the second hyphen onward is dropped, keeping only the
    language segment and the first following segment". *)
Definition apple_normalize_spec (identifier : std_string) : std_string :=
  let s := underscores_to_hyphens identifier in
  match split_first "-" s with
  | Some (language, rest) =>
      match split_first "-" rest with
      | Some (second, _) => language ++ "-"%char :: second
      | None => s
      end
  | None => s
  end.

(** The environment-variable rule: "the first one that is set and
    non-empty", in the order LC_ALL, LC_MESSAGES, LANG. *)
Definition set_and_non_empty (v : option std_string) : bool :=
  match v with
  | Some (_ :: _) => true
  | _ => false
  end.

Definition first_set_non_empty (getenv : environment) (names : list string)
    : option std_string :=
  match filter (λ v, set_and_non_empty v = true) (map getenv names) with
  | v :: _ => v
  | [] => None
  end.

(** *** Concrete targets and hosts *)

Definition windows_target : target :=
  {| _WIN32 := true; __APPLE__ := false; __linux__ := false;
     __unix__ := false; __ANDROID__ := false |}.

Definition apple_target : target :=
  {| _WIN32 := false; __APPLE__ := true; __linux__ := false;
     __unix__ := false; __ANDROID__ := false |}.

Definition linux_target : target :=
  {| _WIN32 := false; __APPLE__ := false; __linux__ := true;
     __unix__ := true; __ANDROID__ := false |}.

(** A Windows host on which [GetUserDefaultLocaleName] fails. *)
Definition win32_api_failure : Win32 :=
  {| GetUserDefaultLocaleName := 0;
     WideCharToMultiByte_size := 0;
     WideCharToMultiByte_written := 0;
     WideCharToMultiByte_bytes := [] |}.

(** A Windows host on which the converting call fails. *)
Definition win32_conversion_failure : Win32 :=
  {| GetUserDefaultLocaleName := 6;
     WideCharToMultiByte_size := 6;
     WideCharToMultiByte_written := 0;
     WideCharToMultiByte_bytes := [] |}.

(** A Windows host that answers "de-DE". *)
Definition win32_de_DE : Win32 :=
  {| GetUserDefaultLocaleName := 6;
     WideCharToMultiByte_size := 6;
     WideCharToMultiByte_written := 6;
     WideCharToMultiByte_bytes := lit "de-DE" ++ ["000"%char] |}.

(** An Apple host whose identifier cannot be converted. *)
Definition cf_conversion_failure : CoreFoundation :=
  {| CFLocaleCopyCurrent := true; CFStringGetCString := None |}.

Definition cf_zh_Hans_CN : CoreFoundation :=
  {| CFLocaleCopyCurrent := true;
     CFStringGetCString := Some (lit "zh_Hans_CN") |}.

(** LC_ALL unset, LC_MESSAGES empty, LANG set. *)
Definition env_lang_only : environment :=
  λ name,
    if String.eqb name "LANG" then Some (lit "zh_CN.UTF-8")
    else if String.eqb name "LC_MESSAGES" then Some []
    else None.

(** LC_ALL is the placeholder "C", LANG is set. *)
Definition env_lc_all_C : environment :=
  λ name,
    if String.eqb name "LC_ALL" then Some (lit "C")
    else if String.eqb name "LANG" then Some (lit "fr_FR@euro")
    else None.

Definition env_unset : environment := λ _, None.

Definition make_host (w : Win32) (cf : CoreFoundation) (env : environment)
    : host :=
  {| win32 := w; core_foundation := cf; getenv := env |}.

(** *** Detection failure, per platform family *)

Inductive platform : Type := Windows | Apple | Posix | Unsupported.

(** The family the [#if] chain compiles for the target. *)
Definition platform_of (t : target) : platform :=
  if _WIN32 t then Windows
  else if __APPLE__ t then Apple
  else if __linux__ t || __unix__ t || __ANDROID__ t then Posix
  else Unsupported.

(** The target on which none of the tested macros is defined. *)
Definition unsupported_target : target :=
  {| _WIN32 := false; __APPLE__ := false; __linux__ := false;
     __unix__ := false; __ANDROID__ := false |}.

(** "OS API failure, encoding-conversion failure, unset or placeholder
    environment variable", and any platform outside the three families. *)
Definition detection_fails (t : target) (h : host) : bool :=
  match platform_of t with
  | Windows =>
      (GetUserDefaultLocaleName (win32 h) =? 0)
      || (WideCharToMultiByte_size (win32 h) <=? 0)
      || (WideCharToMultiByte_written (win32 h) <=? 0)
  | Apple =>
      negb (CFLocaleCopyCurrent (core_foundation h))
      || negb (bool_decide (is_Some (CFStringGetCString (core_foundation h))))
  | Posix =>
      match first_set_non_empty (getenv h)
              ["LC_ALL"; "LC_MESSAGES"; "LANG"]%string with
      | None => true
      | Some value =>
          bool_decide (value = lit "C") || bool_decide (value = lit "POSIX")
      end
  | Unsupported => true
  end.

(** ** The member functions as state transformers

    Each member function run on the object: the value it returns and the
    catalog it leaves.  The bodies are written with the container calls the
    source makes: [find], which leaves the container alone, and
    [operator[]], which inserts when the key is absent. *)

Section i18n_lang_methods.
Context {LangType : Type} `{Countable LangType}.
Context {TextIdType : Type} `{Countable TextIdType}.
Context {TextType : Type} `{Inhabited TextType}.
Variable DefaultErrorText : TextType.

Definition method (A : Type) : Type :=
  i18n_lang LangType TextIdType TextType → A * i18n_lang LangType TextIdType TextType.

#[local] Instance method_ret : MRet method := λ A a c, (a, c).

#[local] Instance method_bind : MBind method :=
  λ A B k m c, let (a, c') := m c in k a c'.

(** Reading the member [default_lang_]. *)
Definition read_default_lang : method LangType := λ c, (default_lang_ c, c).

(** [texts_.find(lang)]: [Some bucket] is an iterator to the element,
    [None] is [texts_.end()]. *)
Definition texts_find (lang : LangType)
    : method (option (gmap TextIdType TextType)) :=
  λ c, (um_find (texts_ c) lang, c).

(** [texts_[lang]]: the bucket the returned reference designates; an empty
    bucket is inserted first when [lang] has none. *)
Definition texts_subscript (lang : LangType)
    : method (gmap TextIdType TextType) :=
  λ c, (default ∅ (texts_ c !! lang),
        {| default_lang_ := default_lang_ c;
           texts_ := um_subscript ∅ (texts_ c) lang |}).

(** A change made through the reference [texts_[lang]] returned. *)
Definition through_bucket (lang : LangType)
    (f : gmap TextIdType TextType → gmap TextIdType TextType) : method unit :=
  λ c, (tt, {| default_lang_ := default_lang_ c;
               texts_ := alter f lang (texts_ c) |}).

(** The body of [get_text]. *)
Definition get_text_method (lang : LangType) (text_id : TextIdType)
    : method (text_ref LangType TextIdType TextType) :=
  let fallback : method (text_ref LangType TextIdType TextType) :=
    default_lang ← read_default_lang;
    default_iter ← texts_find default_lang;
    match default_iter with
    | Some default_bucket =>
        match um_find default_bucket text_id with
        | Some text => mret (entry_ref default_lang text_id text)
        | None => mret error_text_ref
        end
    | None => mret error_text_ref
    end in
  lang_iter ← texts_find lang;
  match lang_iter with
  | Some bucket =>
      match um_find bucket text_id with
      | Some text => mret (entry_ref lang text_id text)
      | None => fallback
      end
  | None => fallback
  end.

(** The body of [set_text]. *)
Definition set_text_method (lang : LangType) (text_id : TextIdType)
    (text : TextType) : method unit :=
  _ ← texts_subscript lang;
  through_bucket lang (λ bucket, um_at inhabitant bucket text_id (λ _, text)).

(** The body of [set_texts]. *)
Definition set_texts_method (lang : LangType)
    (texts : gmap TextIdType TextType) : method unit :=
  _ ← texts_subscript lang;
  through_bucket lang (λ bucket, um_insert_range bucket texts).

(** A call of the public surface run through the bodies. *)
Definition exec_method (op : call LangType TextIdType TextType)
    : method (reply TextType) :=
  match op with
  | SetText lang text_id text =>
      _ ← set_text_method lang text_id text; mret ReplySelf
  | SetTexts lang texts =>
      _ ← set_texts_method lang texts; mret ReplySelf
  | GetText lang text_id =>
      r ← get_text_method lang text_id;
      mret (ReplyText (ref_value DefaultErrorText r))
  | GetDefaultErrorText =>
      mret (ReplyText (get_default_error_text DefaultErrorText))
  end.
End i18n_lang_methods.

(** ** Vocabulary for further properties *)

Section i18n_lang_calls.
Context {LangType : Type} `{Countable LangType}.
Context {TextIdType : Type} `{Countable TextIdType}.
Context {TextType : Type}.

(** The one call that assigns to an element that may already exist. *)
Definition is_set_text (op : call LangType TextIdType TextType) : bool :=
  match op with
  | SetText _ _ _ => true
  | _ => false
  end.
End i18n_lang_calls.

(** [ch] occurs in [s]. *)
Definition has_char (ch : ascii) (s : std_string) : bool :=
  existsb (λ c, Ascii.eqb c ch) s.

(** The number of occurrences of [ch] in [s]. *)
Fixpoint count_char (ch : ascii) (s : std_string) : nat :=
  match s with
  | [] => O
  | c :: s' => ((if Ascii.eqb c ch then 1 else 0) + count_char ch s')%nat
  end.

(** An annotation: nothing, or a suffix that starts with '.' or '@'. *)
Definition is_annotation (s : std_string) : bool :=
  match s with
  | [] => true
  | c :: _ => Ascii.eqb c "." || Ascii.eqb c "@"
  end.

(** The four characters the normalization looks for; none is a letter. *)
Definition is_mark (ch : ascii) : bool :=
  Ascii.eqb ch "_" || Ascii.eqb ch "-" || Ascii.eqb ch "." || Ascii.eqb ch "@".

(** The end of a segment: the end of the string, or a separator. *)
Definition is_segment_end (s : std_string) : bool :=
  match s with
  | [] => true
  | c :: _ => Ascii.eqb c "_" || Ascii.eqb c "-"
  end.

(** * Properties *)

(** ** [std::unordered_map] operations *)

Section unordered_map_facts.
Context {K : Type} `{Countable K} {V : Type}.
Implicit Types (m src : gmap K V) (k : K) (v init : V) (f : V → V).

Lemma um_subscript_lookup init m k :
  um_subscript init m k !! k = Some (default init (m !! k)).
Proof.
  unfold um_subscript. destruct (m !! k) as [v|] eqn:Hk; simpl.
  - exact Hk.
  - apply lookup_insert_eq.
Qed.

Lemma um_subscript_lookup_ne init m k k' :
  k ≠ k' → um_subscript init m k !! k' = m !! k'.
Proof.
  intros Hne. unfold um_subscript. destruct (m !! k); [reflexivity|].
  by apply lookup_insert_ne.
Qed.

Lemma um_at_lookup init m k f :
  um_at init m k f !! k = Some (f (default init (m !! k))).
Proof.
  unfold um_at. rewrite lookup_alter_eq, um_subscript_lookup. reflexivity.
Qed.

Lemma um_at_lookup_ne init m k k' f :
  k ≠ k' → um_at init m k f !! k' = m !! k'.
Proof.
  intros Hne. unfold um_at. rewrite lookup_alter_ne by done.
  by apply um_subscript_lookup_ne.
Qed.

Lemma um_insert_lookup m k v k' :
  um_insert m k v !! k' =
    match m !! k' with
    | Some old => Some old
    | None => if decide (k = k') then Some v else None
    end.
Proof.
  unfold um_insert. destruct (decide (k = k')) as [<-|Hne].
  - destruct (m !! k) as [old|] eqn:Hk.
    + by rewrite Hk.
    + by rewrite lookup_insert_eq.
  - destruct (m !! k) as [old|] eqn:Hk.
    + by destruct (m !! k').
    + rewrite lookup_insert_ne by done. by destruct (m !! k').
Qed.

(** A range insert keeps every element of the destination and adds the
    elements of the source whose keys are new. *)
Lemma um_insert_range_lookup m src k :
  um_insert_range m src !! k =
    match m !! k with
    | Some old => Some old
    | None => src !! k
    end.
Proof.
  unfold um_insert_range. revert k.
  apply (map_fold_weak_ind
           (λ r s, ∀ k, r !! k = match m !! k with
                                 | Some old => Some old
                                 | None => s !! k
                                 end)).
  - intros k. rewrite lookup_empty. by destruct (m !! k).
  - intros i x s r Hfresh IH k. rewrite um_insert_lookup, IH.
    destruct (m !! k) as [old|]; [reflexivity|].
    destruct (decide (i = k)) as [->|Hne].
    + rewrite Hfresh. by rewrite lookup_insert_eq.
    + rewrite lookup_insert_ne by done. by destruct (s !! k).
Qed.
End unordered_map_facts.

(** ** The catalog *)

Section i18n_lang_facts.
Context {LangType : Type} `{Countable LangType}.
Context {TextIdType : Type} `{Countable TextIdType}.
Context {TextType : Type} `{Inhabited TextType}.
Variable DefaultErrorText : TextType.

Abbreviation catalog := (i18n_lang LangType TextIdType TextType).
Implicit Types (c : catalog) (lang : LangType) (text_id : TextIdType)
  (text : TextType).

Lemma get_text_ref_stored c lang text_id :
  get_text_ref c lang text_id =
    match stored c lang text_id with
    | Some text => entry_ref lang text_id text
    | None =>
        match stored c (default_lang_ c) text_id with
        | Some text => entry_ref (default_lang_ c) text_id text
        | None => error_text_ref
        end
    end.
Proof.
  unfold get_text_ref, stored, um_find.
  destruct (texts_ c !! lang) as [bucket|];
    [destruct (bucket !! text_id); [reflexivity|]|];
    simpl; by destruct (texts_ c !! default_lang_ c).
Qed.

Lemma stored_set_text c lang text_id text :
  stored (set_text c lang text_id text) lang text_id = Some text.
Proof.
  unfold stored, set_text; simpl.
  rewrite um_at_lookup. apply um_at_lookup.
Qed.

Lemma stored_set_text_ne c lang text_id text lang' text_id' :
  (lang, text_id) ≠ (lang', text_id') →
  stored (set_text c lang text_id text) lang' text_id' = stored c lang' text_id'.
Proof.
  intros Hne. unfold stored, set_text; simpl.
  destruct (decide (lang = lang')) as [<-|Hl].
  - rewrite um_at_lookup.
    rewrite um_at_lookup_ne by congruence.
    destruct (texts_ c !! lang); simpl; [reflexivity|apply lookup_empty].
  - by rewrite um_at_lookup_ne.
Qed.

Lemma stored_set_texts c lang texts text_id :
  stored (set_texts c lang texts) lang text_id =
    match stored c lang text_id with
    | Some old => Some old
    | None => texts !! text_id
    end.
Proof.
  unfold stored, set_texts; simpl.
  rewrite um_at_lookup, um_insert_range_lookup.
  destruct (texts_ c !! lang); simpl; [reflexivity|].
  by rewrite lookup_empty.
Qed.

Lemma stored_set_texts_ne c lang texts lang' text_id :
  lang ≠ lang' →
  stored (set_texts c lang texts) lang' text_id = stored c lang' text_id.
Proof.
  intros Hne. unfold stored, set_texts; simpl. by rewrite um_at_lookup_ne.
Qed.
End i18n_lang_facts.

Section i18n_lang_claims.
Context {LangType : Type} `{Countable LangType}.
Context {TextIdType : Type} `{Countable TextIdType}.
Context {TextType : Type} `{Inhabited TextType}.
Variable DefaultErrorText : TextType.

Abbreviation catalog := (i18n_lang LangType TextIdType TextType).
Implicit Types (c : catalog) (lang : LangType) (text_id : TextIdType)
  (text : TextType).

(** C1: [get_text(lang, id)] returns the text stored under [(lang, id)]
    when [lang]'s bucket contains [id]; otherwise the text stored under
    the default language and [id] when that bucket contains [id];
    otherwise the sentinel.  The requested language wins over the default
    one, and the reference to the sentinel is returned exactly when both
    the requested and the default language lack [id]. *)
Theorem get_text_three_tier c lang text_id :
  get_text DefaultErrorText c lang text_id =
    match stored c lang text_id with
    | Some text => text
    | None =>
        match stored c (default_lang_ c) text_id with
        | Some text => text
        | None => get_default_error_text DefaultErrorText
        end
    end
  ∧ (get_text_ref c lang text_id = error_text_ref ↔
       stored c lang text_id = None
       ∧ stored c (default_lang_ c) text_id = None).
Proof.
  unfold get_text. rewrite get_text_ref_stored.
  destruct (stored c lang text_id) as [text|]; simpl.
  - split; [reflexivity|]. split; [discriminate|]. intros [? _]; discriminate.
  - destruct (stored c (default_lang_ c) text_id) as [text|]; simpl.
    + split; [reflexivity|]. split; [discriminate|]. intros [_ ?]; discriminate.
    + split; [reflexivity|]. split; auto.
Qed.

(** C3: after [set_texts(lang, entries)] every id already present in
    [lang]'s bucket keeps its previous text, and every id of [entries] not
    previously present there is stored with the text [entries] gives. *)
Theorem set_texts_keeps_old_adds_new c lang
    (entries : gmap TextIdType TextType) text_id :
  stored (set_texts c lang entries) lang text_id =
    match stored c lang text_id with
    | Some previous => Some previous
    | None => entries !! text_id
    end.
Proof. apply stored_set_texts. Qed.

(** C4: [set_text(lang, id, t)] followed by [get_text(lang, id)] returns
    [t], whatever the catalog held before. *)
Theorem get_text_after_set_text c lang text_id text :
  get_text DefaultErrorText (set_text c lang text_id text) lang text_id = text.
Proof.
  unfold get_text. rewrite get_text_ref_stored, stored_set_text. reflexivity.
Qed.

(** C8: [get_default_error_text()] is the fixed text "TEXT_NOT_FOUND" in
    the default instantiation, the template argument in general; its
    answer is the same for every catalog; and [get_text(lang, id)] equals
    it whenever neither [lang]'s bucket nor the default language's bucket
    contains [id]. *)
Theorem get_default_error_text_is_sentinel :
  i18n_lang_default.get_default_error_text = U "TEXT_NOT_FOUND"
  ∧ (∀ c c', snd (exec DefaultErrorText GetDefaultErrorText c)
             = snd (exec DefaultErrorText GetDefaultErrorText c'))
  ∧ (∀ c lang text_id,
       stored c lang text_id = None →
       stored c (default_lang_ c) text_id = None →
       get_text DefaultErrorText c lang text_id
       = get_default_error_text DefaultErrorText).
Proof.
  split; [reflexivity|]. split; [reflexivity|].
  intros c lang text_id Hlang Hdefault.
  unfold get_text. rewrite get_text_ref_stored, Hlang, Hdefault. reflexivity.
Qed.

Lemma default_lang_exec (op : call LangType TextIdType TextType) c :
  default_lang_ (fst (exec DefaultErrorText op c)) = default_lang_ c.
Proof. destruct op; reflexivity. Qed.

Lemma stored_exec_mono (op : call LangType TextIdType TextType) c lang text_id :
  is_Some (stored c lang text_id) →
  is_Some (stored (fst (exec DefaultErrorText op c)) lang text_id).
Proof.
  intros Hin. destruct op as [l i t|l texts|l i|]; simpl; try assumption.
  - destruct (decide ((l, i) = (lang, text_id))) as [[= -> ->]|Hne].
    + rewrite stored_set_text. eauto.
    + by rewrite stored_set_text_ne.
  - destruct (decide (l = lang)) as [->|Hne].
    + rewrite stored_set_texts. destruct Hin as [old ->]. eauto.
    + by rewrite stored_set_texts_ne.
Qed.

(** C9: the default language is fixed by either constructor and left
    unchanged by every call of the public surface, hence by every sequence
    of calls; and no call removes a stored text. *)
Theorem default_lang_is_invariant :
  (∀ default_lang : LangType,
     default_lang_ (i18n_lang_ctor default_lang : catalog) = default_lang)
  ∧ (∀ default_lang (texts : gmap LangType (gmap TextIdType TextType)),
       default_lang_ (i18n_lang_ctor_texts default_lang texts) = default_lang)
  ∧ (∀ c lang text_id text,
       default_lang_ (set_text c lang text_id text) = default_lang_ c)
  ∧ (∀ c lang texts, default_lang_ (set_texts c lang texts) = default_lang_ c)
  ∧ (∀ c lang text_id,
       default_lang_ (fst (exec DefaultErrorText (GetText lang text_id) c))
       = default_lang_ c)
  ∧ (∀ ops c, default_lang_ (run DefaultErrorText ops c) = default_lang_ c)
  ∧ (∀ ops c lang text_id,
       is_Some (stored c lang text_id) →
       is_Some (stored (run DefaultErrorText ops c) lang text_id)).
Proof.
  repeat split; try reflexivity.
  - intros ops. induction ops as [|op ops IH]; intros c; simpl.
    + reflexivity.
    + rewrite IH. apply default_lang_exec.
  - intros ops. induction ops as [|op ops IH]; intros c lang text_id Hin; simpl.
    + assumption.
    + apply IH. by apply stored_exec_mono.
Qed.

Lemma set_text_method_set_text c lang text_id text :
  set_text_method lang text_id text c = (tt, set_text c lang text_id text).
Proof. reflexivity. Qed.

Lemma set_texts_method_set_texts c lang
    (texts : gmap TextIdType TextType) :
  set_texts_method lang texts c = (tt, set_texts c lang texts).
Proof. reflexivity. Qed.

(** The body of [get_text] returns the reference [get_text_ref] describes
    and hands the catalog back as it received it. *)
Lemma get_text_method_run c lang text_id :
  get_text_method lang text_id c = (get_text_ref c lang text_id, c).
Proof.
  unfold get_text_method, get_text_ref, texts_find, read_default_lang.
  unfold mbind, method_bind, mret, method_ret.
  destruct (um_find (texts_ c) lang) as [bucket|];
    [destruct (um_find bucket text_id) as [text|]; [reflexivity|]|];
    (destruct (um_find (texts_ c) (default_lang_ c)) as [default_bucket|];
     [destruct (um_find default_bucket text_id)|]; reflexivity).
Qed.

(** Each step of [exec] is the run of the member function's body. *)
Lemma exec_method_exec (op : call LangType TextIdType TextType) c :
  exec_method DefaultErrorText op c
  = (snd (exec DefaultErrorText op c), fst (exec DefaultErrorText op c)).
Proof.
  destruct op as [l i t|l texts|l i|]; try reflexivity.
  unfold exec_method, mbind, method_bind.
  by rewrite get_text_method_run.
Qed.

(** [operator[]] on a language without a bucket leaves an empty bucket
    behind. *)
Lemma texts_subscript_creates_bucket c lang :
  texts_ c !! lang = None →
  texts_ (snd (texts_subscript lang c)) !! lang = Some ∅.
Proof.
  intros Habsent. unfold texts_subscript; simpl.
  by rewrite um_subscript_lookup, Habsent.
Qed.

(** C10: the body of [get_text], which reaches [texts_] through [find]
    only, returns its reference and leaves the catalog it ran on as it was,
    the mapping and the default language alike; a language that has no
    bucket before the call has none after it. *)
Theorem get_text_is_pure_observer c lang text_id :
  snd (get_text_method lang text_id c) = c
  ∧ fst (get_text_method lang text_id c) = get_text_ref c lang text_id
  ∧ texts_ (snd (get_text_method lang text_id c)) = texts_ c
  ∧ default_lang_ (snd (get_text_method lang text_id c)) = default_lang_ c
  ∧ snd (exec_method DefaultErrorText (GetText lang text_id) c) = c
  ∧ (texts_ c !! lang = None →
     texts_ (snd (get_text_method lang text_id c)) !! lang = None).
Proof.
  rewrite exec_method_exec, get_text_method_run. simpl.
  repeat split. intros Habsent. exact Habsent.
Qed.

(** By contrast [operator[]] does create the bucket: a bulk insert of
    nothing into a language without a bucket leaves an empty one. *)
Lemma set_texts_creates_bucket c lang :
  texts_ c !! lang = None →
  texts_ (set_texts c lang ∅) !! lang = Some ∅.
Proof.
  intros Habsent. unfold set_texts; simpl.
  rewrite um_at_lookup, Habsent. simpl. reflexivity.
Qed.
End i18n_lang_claims.

(** ** [std::string] operations *)

Section std_string_facts.
Implicit Types (s a b : std_string) (ch c : ascii) (f : ascii → ascii).

(** A search by index and a cut at the first occurrence agree. *)
Lemma find_char_split_first ch s :
  match find_char ch s with
  | Some i => split_first ch s = Some (take i s, drop (S i) s)
  | None => split_first ch s = None
  end.
Proof.
  induction s as [|c s IH]; simpl; [reflexivity|].
  destruct (Ascii.eqb c ch); simpl.
  - by rewrite drop_0.
  - destruct (find_char ch s) as [i|]; simpl; by rewrite IH.
Qed.

Lemma split_first_app ch s a b :
  split_first ch s = Some (a, b) → s = a ++ ch :: b.
Proof.
  revert a b. induction s as [|c s IH]; intros a b; simpl; [discriminate|].
  destruct (Ascii.eqb c ch) eqn:Hc.
  - apply Ascii.eqb_eq in Hc as ->. by intros [= <- <-].
  - destruct (split_first ch s) as [[a' b']|]; [|discriminate].
    intros [= <- <-]. simpl. f_equal. by apply IH.
Qed.

Lemma split_first_find_char ch s a b :
  split_first ch s = Some (a, b) → find_char ch s = Some (length a).
Proof.
  revert a b. induction s as [|c s IH]; intros a b; simpl; [discriminate|].
  destruct (Ascii.eqb c ch).
  - by intros [= <- <-].
  - destruct (split_first ch s) as [[a' b']|] eqn:Hs; [|discriminate].
    intros [= <- <-]. by rewrite (IH a' b').
Qed.

Lemma split_first_None_find_char ch s :
  split_first ch s = None → find_char ch s = None.
Proof.
  intros Hs. pose proof (find_char_split_first ch s) as Hf.
  destruct (find_char ch s); [congruence|reflexivity].
Qed.

(** Cutting at the index [find] returns strips the suffix that starts at
    the first occurrence. *)
Lemma substr0_find_char ch s :
  match find_char ch s with
  | Some pos => substr0 pos s
  | None => s
  end = strip_suffix_at ch s.
Proof.
  unfold substr0. induction s as [|c s IH]; simpl; [reflexivity|].
  destruct (Ascii.eqb c ch); simpl; [reflexivity|].
  destruct (find_char ch s) as [i|]; simpl; by rewrite <- IH.
Qed.

Lemma transform_range_prefix f a b :
  transform_range 0 (length a) f (a ++ b) = map f a ++ b.
Proof.
  unfold transform_range. simpl. rewrite drop_0, Nat.sub_0_r.
  by rewrite take_app_length, drop_app_length.
Qed.

Lemma transform_range_suffix f a b :
  transform_range (length a) (length (a ++ b)) f (a ++ b) = a ++ map f b.
Proof.
  unfold transform_range.
  rewrite take_app_length, drop_app_length, drop_all, app_nil_r.
  rewrite length_app. replace (length a + length b - length a)%nat
    with (length b) by lia.
  by rewrite firstn_all.
Qed.

(** The two [std::transform] calls of the POSIX branch on a string cut at
    its first hyphen. *)
Lemma transform_subtags a b :
  let s := a ++ "-"%char :: b in
  let lowered := transform_range 0 (length a) tolower s in
  transform_range (length a + 1) (length lowered) toupper lowered
  = map tolower a ++ "-"%char :: map toupper b.
Proof.
  simpl. rewrite transform_range_prefix.
  replace (map tolower a ++ "-"%char :: b)
    with ((map tolower a ++ ["-"%char]) ++ b) by by rewrite <- app_assoc.
  replace (length a + 1)%nat with (length (map tolower a ++ ["-"%char]))
    by (rewrite length_app, length_map; reflexivity).
  rewrite transform_range_suffix. by rewrite <- app_assoc.
Qed.
End std_string_facts.

(** ** The POSIX branch *)

Lemma posix_case_step (s : std_string) :
  match find_char "-" s with
  | Some dash_pos =>
      if (dash_pos + 1 <? length s)%nat
      then
        let result := transform_range 0 dash_pos tolower s in
        transform_range (dash_pos + 1) (length result) toupper result
      else s
  | None => s
  end = case_subtags_guarded s.
Proof.
  unfold case_subtags_guarded.
  destruct (split_first "-" s) as [[a b]|] eqn:Hs.
  - rewrite (split_first_find_char _ _ _ _ Hs).
    apply split_first_app in Hs as ->.
    destruct b as [|c b].
    + rewrite length_app; simpl.
      destruct (Nat.ltb_spec (length a + 1) (length a + 1)); [lia|reflexivity].
    + rewrite length_app; simpl.
      destruct (Nat.ltb_spec (length a + 1) (length a + S (S (length b)))); [|lia].
      apply (transform_subtags a (c :: b)).
  - by rewrite (split_first_None_find_char _ _ Hs).
Qed.

Lemma posix_normalize_guarded (value : std_string) :
  posix_normalize value = posix_normalize_guarded_spec value.
Proof.
  unfold posix_normalize, posix_normalize_guarded_spec.
  destruct (bool_decide (value = lit "C") || bool_decide (value = lit "POSIX"));
    [reflexivity|].
  cbv zeta. rewrite posix_case_step.
  fold (underscores_to_hyphens value).
  change (replace_char "_" "-" value) with (underscores_to_hyphens value).
  by rewrite !substr0_find_char.
Qed.

Lemma posix_env_value_first (env : environment) :
  posix_env_value env
  = first_set_non_empty env ["LC_ALL"; "LC_MESSAGES"; "LANG"]%string.
Proof.
  unfold posix_env_value, first_set_non_empty. simpl map.
  destruct (env "LC_ALL"%string) as [[|c1 s1]|];
    destruct (env "LC_MESSAGES"%string) as [[|c2 s2]|];
    destruct (env "LANG"%string) as [[|c3 s3]|]; reflexivity.
Qed.

(** ** The Apple branch *)

Lemma apple_normalize_refines (identifier : std_string) :
  apple_normalize identifier = apple_normalize_spec identifier.
Proof.
  unfold apple_normalize, apple_normalize_spec. cbv zeta.
  change (replace_char "_" "-" identifier)
    with (underscores_to_hyphens identifier).
  generalize (underscores_to_hyphens identifier) as s. intros s.
  destruct (split_first "-" s) as [[a rest]|] eqn:Hs.
  - rewrite (split_first_find_char _ _ _ _ Hs).
    apply split_first_app in Hs as ->.
    unfold find_char_from.
    replace (drop (length a + 1) (a ++ "-"%char :: rest)) with rest.
    2:{ replace (a ++ "-"%char :: rest) with ((a ++ ["-"%char]) ++ rest)
          by by rewrite <- app_assoc.
        replace (length a + 1)%nat with (length (a ++ ["-"%char]))
          by (rewrite length_app; reflexivity).
        by rewrite drop_app_length. }
    destruct (split_first "-" rest) as [[b c]|] eqn:Hrest.
    + rewrite (split_first_find_char _ _ _ _ Hrest). simpl.
      apply split_first_app in Hrest as ->.
      unfold erase_from.
      replace (a ++ "-"%char :: b ++ "-"%char :: c)
        with ((a ++ "-"%char :: b) ++ "-"%char :: c)
        by (rewrite <- app_assoc; reflexivity).
      replace (length a + 1 + length b)%nat with (length (a ++ "-"%char :: b))
        by (rewrite length_app; simpl; lia).
      by rewrite take_app_length.
    + by rewrite (split_first_None_find_char _ _ Hrest).
  - by rewrite (split_first_None_find_char _ _ Hs).
Qed.

(** ** The platform switch *)

Lemma get_sys_lang_platform (t : target) (h : host) :
  get_sys_lang t h =
    match platform_of t with
    | Windows => get_sys_lang_win32 (win32 h)
    | Apple => get_sys_lang_apple (core_foundation h)
    | Posix => get_sys_lang_posix (getenv h)
    | Unsupported => DEFAULT_LANGUAGE
    end.
Proof.
  unfold get_sys_lang, platform_of.
  destruct (_WIN32 t); [reflexivity|].
  destruct (__APPLE__ t); [reflexivity|].
  destruct (__linux__ t || __unix__ t || __ANDROID__ t); reflexivity.
Qed.

Lemma get_sys_lang_posix_first (env : environment) :
  get_sys_lang_posix env =
    match first_set_non_empty env ["LC_ALL"; "LC_MESSAGES"; "LANG"]%string with
    | Some value => posix_normalize value
    | None => lit "en-US"
    end.
Proof. unfold get_sys_lang_posix. by rewrite posix_env_value_first. Qed.

Lemma posix_normalize_placeholder (value : std_string) :
  bool_decide (value = lit "C") || bool_decide (value = lit "POSIX") = true →
  posix_normalize value = lit "en-US".
Proof. intros Hp. unfold posix_normalize. by rewrite Hp. Qed.

(** ** The claims about the locale resolver *)

(** C2, as the specification states it, fails on the source: with a hyphen
    in last position the source leaves the case of the language subtag as it
    is, where the stated rule lowercases it. *)
Lemma posix_normalize_spec_counterexample :
  posix_normalize (lit "EN_") = lit "EN-"
  ∧ posix_normalize_spec (lit "EN_") = lit "en-"
  ∧ posix_normalize (lit "EN_") ≠ posix_normalize_spec (lit "EN_").
Proof. split; [reflexivity|]. split; [reflexivity|]. discriminate. Qed.

(** C2, amended: a value that is exactly "C" or "POSIX" gives "en-US";
    otherwise underscores become hyphens, then, when a hyphen is present and
    at least one character follows the first one, the characters before the
    first hyphen are lowercased and those after it uppercased (the case is
    left alone otherwise), then the suffix from the first '.' and the suffix
    from the first '@' are stripped.  "zh_CN.UTF-8" gives "zh-CN" and
    "fr_FR@euro" gives "fr-FR". *)
Theorem posix_normalize_guarded_rule (value : std_string) :
  posix_normalize value = posix_normalize_guarded_spec value
  ∧ posix_normalize (lit "C") = lit "en-US"
  ∧ posix_normalize (lit "POSIX") = lit "en-US"
  ∧ posix_normalize (lit "zh_CN.UTF-8") = lit "zh-CN"
  ∧ posix_normalize (lit "fr_FR@euro") = lit "fr-FR".
Proof.
  split; [apply posix_normalize_guarded|]. repeat split; reflexivity.
Qed.

(** C5: on a POSIX-class target [get_sys_lang] works on the first of LC_ALL,
    LC_MESSAGES, LANG that is set and non-empty, and returns "en-US" when
    none of the three is. *)
Theorem get_sys_lang_posix_priority (t : target) (h : host) :
  platform_of t = Posix →
  get_sys_lang t h =
    match first_set_non_empty (getenv h)
            ["LC_ALL"; "LC_MESSAGES"; "LANG"]%string with
    | Some value => posix_normalize value
    | None => lit "en-US"
    end.
Proof.
  intros Hposix. rewrite get_sys_lang_platform, Hposix.
  apply get_sys_lang_posix_first.
Qed.

(** C6: the Apple-class rule turns underscores into hyphens and, when the
    result has a second hyphen, drops everything from it on, keeping the
    language segment and the first segment after it; "zh_Hans_CN" gives
    "zh-Hans". *)
Theorem apple_normalize_keeps_two_segments (identifier : std_string) :
  apple_normalize identifier = apple_normalize_spec identifier
  ∧ apple_normalize (lit "zh_Hans_CN") = lit "zh-Hans".
Proof. split; [apply apple_normalize_refines|reflexivity]. Qed.

(** C7: [get_sys_lang] always returns a string; on the target outside the
    three families it is "en-US" whatever the host answers, and on every
    detection failure (a failing system call, a failing conversion, no
    variable set and non-empty, a placeholder value) it is "en-US". *)
Theorem get_sys_lang_falls_back :
  (∀ h, get_sys_lang unsupported_target h = lit "en-US")
  ∧ (∀ t h, detection_fails t h = true → get_sys_lang t h = lit "en-US").
Proof.
  split; [reflexivity|].
  intros t h. rewrite get_sys_lang_platform. unfold detection_fails.
  destruct (platform_of t).
  - unfold get_sys_lang_win32. intros Hfail.
    destruct (GetUserDefaultLocaleName (win32 h) =? 0); [reflexivity|].
    destruct (WideCharToMultiByte_size (win32 h) <=? 0); [reflexivity|].
    destruct (WideCharToMultiByte_written (win32 h) <=? 0); [reflexivity|].
    discriminate.
  - unfold get_sys_lang_apple. intros Hfail.
    destruct (CFLocaleCopyCurrent (core_foundation h)); [|reflexivity].
    destruct (CFStringGetCString (core_foundation h)); [|reflexivity].
    simpl in Hfail. discriminate.
  - rewrite get_sys_lang_posix_first.
    destruct (first_set_non_empty _ _); [|reflexivity].
    apply posix_normalize_placeholder.
  - reflexivity.
Qed.

(** ** Further properties of the catalog *)

Section i18n_lang_more.
Context {LangType : Type} `{Countable LangType}.
Context {TextIdType : Type} `{Countable TextIdType}.
Context {TextType : Type} `{Inhabited TextType}.
Variable DefaultErrorText : TextType.

Abbreviation catalog := (i18n_lang LangType TextIdType TextType).
Implicit Types (c : catalog) (lang : LangType) (text_id : TextIdType)
  (text : TextType) (entries : gmap TextIdType TextType).

Lemma um_at_insert {K : Type} `{Countable K} {V : Type}
    (init : V) (m : gmap K V) (k : K) (f : V → V) :
  um_at init m k f = <[k := f (default init (m !! k))]> m.
Proof.
  apply map_eq; intros k'. destruct (decide (k = k')) as [<-|Hne].
  - by rewrite um_at_lookup, lookup_insert_eq.
  - by rewrite um_at_lookup_ne, lookup_insert_ne.
Qed.

Lemma um_insert_range_union {K : Type} `{Countable K} {V : Type}
    (m src : gmap K V) :
  um_insert_range m src = m ∪ src.
Proof.
  apply map_eq; intros k. rewrite um_insert_range_lookup, lookup_union.
  by destruct (m !! k), (src !! k).
Qed.

Lemma texts_set_text c lang text_id text :
  texts_ (set_text c lang text_id text)
  = <[lang := <[text_id := text]> (default ∅ (texts_ c !! lang))]> (texts_ c).
Proof.
  unfold set_text; simpl. rewrite um_at_insert. f_equal. apply um_at_insert.
Qed.

Lemma texts_set_texts c lang entries :
  texts_ (set_texts c lang entries)
  = <[lang := default ∅ (texts_ c !! lang) ∪ entries]> (texts_ c).
Proof.
  unfold set_texts; simpl. rewrite um_at_insert. f_equal.
  apply um_insert_range_union.
Qed.

Lemma i18n_lang_eq c c' :
  default_lang_ c = default_lang_ c' → texts_ c = texts_ c' → c = c'.
Proof. destruct c, c'; simpl; congruence. Qed.

Lemma stored_bucket c lang text_id :
  stored c lang text_id = default ∅ (texts_ c !! lang) !! text_id.
Proof.
  unfold stored. destruct (texts_ c !! lang); simpl; [reflexivity|].
  by rewrite lookup_empty.
Qed.

Lemma get_text_stored_eq c c' lang text_id :
  default_lang_ c' = default_lang_ c →
  stored c' lang text_id = stored c lang text_id →
  stored c' (default_lang_ c) text_id = stored c (default_lang_ c) text_id →
  get_text DefaultErrorText c' lang text_id
  = get_text DefaultErrorText c lang text_id.
Proof.
  intros Hd Hl Hdl. unfold get_text. rewrite !get_text_ref_stored.
  rewrite Hd, Hl, Hdl.
  destruct (stored c lang text_id); [reflexivity|].
  by destruct (stored c (default_lang_ c) text_id).
Qed.

(** X1: two [set_text] calls on the same language and id leave the catalog
    that the second call alone would leave: the last write wins. *)
Theorem set_text_last_write_wins c lang text_id text1 text2 :
  set_text (set_text c lang text_id text1) lang text_id text2
  = set_text c lang text_id text2.
Proof.
  apply i18n_lang_eq; [reflexivity|].
  rewrite !texts_set_text, lookup_insert_eq. simpl.
  by rewrite !insert_insert_eq.
Qed.

(** X2: [set_text] calls on different (language, id) pairs commute. *)
Theorem set_text_commutes c lang1 text_id1 text1 lang2 text_id2 text2 :
  (lang1, text_id1) ≠ (lang2, text_id2) →
  set_text (set_text c lang1 text_id1 text1) lang2 text_id2 text2
  = set_text (set_text c lang2 text_id2 text2) lang1 text_id1 text1.
Proof.
  intros Hne. apply i18n_lang_eq; [reflexivity|].
  rewrite !texts_set_text.
  destruct (decide (lang1 = lang2)) as [<-|Hl].
  - rewrite !lookup_insert_eq. simpl. rewrite !insert_insert_eq.
    f_equal. apply insert_insert_ne. congruence.
  - rewrite !lookup_insert_ne by done. by apply insert_insert_ne.
Qed.

(** X3: two bulk inserts into one language amount to one bulk insert of the
    two mappings merged with the first one taking precedence; in particular
    repeating a bulk insert changes nothing. *)
Theorem set_texts_twice c lang entries1 entries2 :
  set_texts (set_texts c lang entries1) lang entries2
  = set_texts c lang (entries1 ∪ entries2)
  ∧ set_texts (set_texts c lang entries1) lang entries1
    = set_texts c lang entries1.
Proof.
  assert (Hmerge : ∀ e2, set_texts (set_texts c lang entries1) lang e2
                         = set_texts c lang (entries1 ∪ e2)).
  { intros e2. apply i18n_lang_eq; [reflexivity|].
    rewrite !texts_set_texts, lookup_insert_eq. simpl.
    by rewrite insert_insert_eq, (assoc_L (∪)). }
  split; [apply Hmerge|].
  rewrite Hmerge. by rewrite (idemp_L (∪)).
Qed.

(** X4: a bulk insert of a single entry is [set_text] when the language has
    no text under that id, and leaves the catalog as it is when it has
    one. *)
Theorem set_texts_singleton c lang text_id text :
  set_texts c lang {[text_id := text]}
  = match stored c lang text_id with
    | Some _ => c
    | None => set_text c lang text_id text
    end.
Proof.
  destruct (stored c lang text_id) as [old|] eqn:Hs.
  - apply i18n_lang_eq; [reflexivity|].
    rewrite texts_set_texts. unfold stored in Hs.
    destruct (texts_ c !! lang) as [bucket|] eqn:Hb; [|discriminate]. simpl.
    apply insert_id. rewrite Hb. f_equal.
    apply map_eq; intros i. rewrite lookup_union.
    destruct (decide (i = text_id)) as [->|Hne].
    + by rewrite Hs, lookup_singleton_eq.
    + rewrite lookup_singleton_ne by done. by destruct (bucket !! i).
  - apply i18n_lang_eq; [reflexivity|].
    rewrite texts_set_texts, texts_set_text. f_equal.
    symmetry. apply insert_union_singleton_r. by rewrite <- stored_bucket.
Qed.

(** X5: a text stored under the default language is what every language
    without a text for that id gets. *)
Theorem set_text_default_reaches_all c lang text_id text :
  stored c lang text_id = None →
  get_text DefaultErrorText (set_text c (default_lang_ c) text_id text)
    lang text_id = text.
Proof.
  intros Hnone. unfold get_text. rewrite get_text_ref_stored. simpl.
  destruct (decide (default_lang_ c = lang)) as [<-|Hne].
  - by rewrite stored_set_text.
  - rewrite stored_set_text_ne, Hnone by congruence.
    by rewrite stored_set_text.
Qed.

(** X6: storing texts for other ids never changes what any language gets
    for an id: [set_text] on another id, and a bulk insert whose mapping has
    no entry for the id, leave [get_text] for that id as it was. *)
Theorem get_text_other_id c lang text_id lang' text_id' text entries :
  text_id' ≠ text_id →
  entries !! text_id = None →
  get_text DefaultErrorText (set_text c lang' text_id' text) lang text_id
  = get_text DefaultErrorText c lang text_id
  ∧ get_text DefaultErrorText (set_texts c lang' entries) lang text_id
    = get_text DefaultErrorText c lang text_id.
Proof.
  intros Hid Hentries.
  assert (Hbulk : ∀ l, stored (set_texts c lang' entries) l text_id
                       = stored c l text_id).
  { intros l. destruct (decide (lang' = l)) as [<-|Hne].
    - rewrite stored_set_texts, Hentries. by destruct (stored c lang' text_id).
    - by apply stored_set_texts_ne. }
  split; apply get_text_stored_eq; try reflexivity;
    try (apply stored_set_text_ne; congruence); apply Hbulk.
Qed.

(** X7: writes to a language that is neither the requested one nor the
    default one are not seen by [get_text]. *)
Theorem get_text_other_language c lang text_id lang' text_id' text entries :
  lang' ≠ lang →
  lang' ≠ default_lang_ c →
  get_text DefaultErrorText (set_text c lang' text_id' text) lang text_id
  = get_text DefaultErrorText c lang text_id
  ∧ get_text DefaultErrorText (set_texts c lang' entries) lang text_id
    = get_text DefaultErrorText c lang text_id.
Proof.
  intros Hl Hd.
  split; apply get_text_stored_eq; try reflexivity;
    try (apply stored_set_text_ne; congruence);
    by apply stored_set_texts_ne.
Qed.

(** X8: a bulk insert of an empty mapping changes no answer of [get_text],
    yet it changes the catalog unless the language already has a bucket. *)
Theorem set_texts_empty c lang :
  (∀ lang' text_id,
     get_text DefaultErrorText (set_texts c lang ∅) lang' text_id
     = get_text DefaultErrorText c lang' text_id)
  ∧ (set_texts c lang ∅ = c ↔ is_Some (texts_ c !! lang)).
Proof.
  assert (Hs : ∀ l i, stored (set_texts c lang ∅) l i = stored c l i).
  { intros l i. destruct (decide (lang = l)) as [<-|Hne].
    - rewrite stored_set_texts, lookup_empty. by destruct (stored c lang i).
    - by apply stored_set_texts_ne. }
  split.
  - intros lang' text_id. apply get_text_stored_eq; [reflexivity|apply Hs..].
  - split.
    + intros Heq. rewrite <- Heq, texts_set_texts, lookup_insert_eq. eauto.
    + intros [bucket Hb]. apply i18n_lang_eq; [reflexivity|].
      rewrite texts_set_texts, Hb. simpl. rewrite (right_id_L ∅ (∪)).
      by apply insert_id.
Qed.

(** X9: a stored text can only be changed by [set_text]: after any sequence
    of bulk inserts and lookups it is still the text stored under its
    language and id. *)
Theorem stored_survives_bulk_inserts
    (ops : list (call LangType TextIdType TextType)) c lang text_id text :
  forallb (λ op, negb (is_set_text op)) ops = true →
  stored c lang text_id = Some text →
  stored (run DefaultErrorText ops c) lang text_id = Some text.
Proof.
  revert c. induction ops as [|op ops IH]; intros c Hops Hs; simpl; [done|].
  simpl in Hops. apply andb_true_iff in Hops as [Hop Hops].
  apply IH; [done|].
  destruct op as [l i t|l e|l i|]; simpl; try done.
  destruct (decide (l = lang)) as [->|Hne].
  - by rewrite stored_set_texts, Hs.
  - by rewrite stored_set_texts_ne.
Qed.

(** X10: each of the two writing calls creates the bucket of the language
    it names when there is none and touches no other bucket: the languages
    that have a bucket afterwards are that language and those that had one
    before. *)
Theorem texts_dom_after_write c lang text_id text entries :
  dom (texts_ (set_text c lang text_id text)) = {[lang]} ∪ dom (texts_ c)
  ∧ dom (texts_ (set_texts c lang entries)) = {[lang]} ∪ dom (texts_ c)
  ∧ (∀ lang', lang' ≠ lang →
       texts_ (set_text c lang text_id text) !! lang' = texts_ c !! lang'
       ∧ texts_ (set_texts c lang entries) !! lang' = texts_ c !! lang').
Proof.
  rewrite texts_set_text, texts_set_texts.
  split; [apply dom_insert_L|]. split; [apply dom_insert_L|].
  intros lang' Hne. by rewrite !lookup_insert_ne.
Qed.
End i18n_lang_more.

(** ** Further properties of the locale resolver *)

Section std_string_more.
Implicit Types (s a b p : std_string) (ch c : ascii).

Lemma has_char_app ch a b :
  has_char ch (a ++ b) = has_char ch a || has_char ch b.
Proof. apply existsb_app. Qed.

Lemma has_char_cons ch c s :
  has_char ch (c :: s) = Ascii.eqb c ch || has_char ch s.
Proof. reflexivity. Qed.

Lemma split_first_None_has_char ch s :
  split_first ch s = None ↔ has_char ch s = false.
Proof.
  induction s as [|c s IH]; simpl; [done|].
  destruct (Ascii.eqb c ch); simpl; [done|].
  rewrite <- IH. destruct (split_first ch s) as [[a b]|]; done.
Qed.

Lemma split_first_before ch s a b :
  split_first ch s = Some (a, b) → has_char ch a = false.
Proof.
  revert a b. induction s as [|c s IH]; intros a b; simpl; [done|].
  destruct (Ascii.eqb c ch) eqn:Hc.
  - by intros [= <- <-].
  - destruct (split_first ch s) as [[a' b']|]; [|done].
    intros [= <- <-]. simpl. rewrite Hc. simpl. by eapply IH.
Qed.

(** Cutting at the first [ch] skips a prefix that has no [ch]. *)
Lemma split_first_skip ch p s :
  has_char ch p = false →
  split_first ch (p ++ s)
  = match split_first ch s with
    | Some (a, b) => Some (p ++ a, b)
    | None => None
    end.
Proof.
  induction p as [|c p IH]; simpl.
  - intros _. by destruct (split_first ch s) as [[a b]|].
  - destruct (Ascii.eqb c ch); simpl; [done|]. intros Hp.
    rewrite (IH Hp). by destruct (split_first ch s) as [[a b]|].
Qed.

Lemma split_first_here ch a b :
  has_char ch a = false → split_first ch (a ++ ch :: b) = Some (a, b).
Proof.
  intros Ha. rewrite (split_first_skip _ _ _ Ha). simpl.
  by rewrite Ascii.eqb_refl, app_nil_r.
Qed.

Lemma strip_suffix_at_free ch s : has_char ch (strip_suffix_at ch s) = false.
Proof.
  induction s as [|c s IH]; simpl; [done|].
  destruct (Ascii.eqb c ch) eqn:Hc; simpl; [done|]. by rewrite Hc.
Qed.

Lemma strip_suffix_at_keeps_free ch c s :
  has_char c s = false → has_char c (strip_suffix_at ch s) = false.
Proof.
  induction s as [|x s IH]; simpl; [done|].
  intros [Hx Hs]%orb_false_iff.
  destruct (Ascii.eqb x ch); simpl; [done|]. by rewrite Hx, IH.
Qed.

Lemma strip_suffix_at_skip ch p s :
  has_char ch p = false →
  strip_suffix_at ch (p ++ s) = p ++ strip_suffix_at ch s.
Proof.
  induction p as [|c p IH]; simpl; [done|].
  intros [Hc Hp]%orb_false_iff. rewrite Hc. by rewrite IH.
Qed.

Lemma strip_suffix_at_id ch s :
  has_char ch s = false → strip_suffix_at ch s = s.
Proof.
  intros Hs. rewrite <- (app_nil_r s) at 1.
  rewrite strip_suffix_at_skip by done. simpl. apply app_nil_r.
Qed.

Lemma underscores_to_hyphens_free s :
  has_char "_" (underscores_to_hyphens s) = false.
Proof.
  induction s as [|c s IH]; simpl; [done|].
  rewrite IH. by destruct (Ascii.eqb c "_") eqn:Hc; simpl; [|rewrite Hc].
Qed.

Lemma underscores_to_hyphens_id s :
  has_char "_" s = false → underscores_to_hyphens s = s.
Proof.
  induction s as [|c s IH]; simpl; [done|].
  intros [Hc Hs]%orb_false_iff. rewrite Hc. by rewrite IH.
Qed.

Lemma underscores_to_hyphens_app a b :
  underscores_to_hyphens (a ++ b)
  = underscores_to_hyphens a ++ underscores_to_hyphens b.
Proof. apply map_app. Qed.

Lemma underscores_to_hyphens_keeps ch s :
  ch ≠ "-"%char → has_char ch s = false →
  has_char ch (underscores_to_hyphens s) = false.
Proof.
  intros Hch. induction s as [|c s IH]; simpl; [done|].
  intros [Hc Hs]%orb_false_iff. rewrite (IH Hs), orb_false_r.
  destruct (Ascii.eqb c "_"); [|done].
  apply Ascii.eqb_neq. congruence.
Qed.

(** Case conversion neither makes nor removes a mark. *)
Lemma case_keeps_marks ch c :
  is_mark ch = true →
  Ascii.eqb (tolower c) ch = Ascii.eqb c ch
  ∧ Ascii.eqb (toupper c) ch = Ascii.eqb c ch.
Proof.
  unfold is_mark. rewrite !orb_true_iff, !Ascii.eqb_eq.
  intros [[[->| ->]| ->]| ->];
    destruct c as [[] [] [] [] [] [] [] []]; split; reflexivity.
Qed.

Lemma has_char_map_case ch s :
  is_mark ch = true →
  has_char ch (map tolower s) = has_char ch s
  ∧ has_char ch (map toupper s) = has_char ch s.
Proof.
  intros Hch. induction s as [|c s [IHl IHu]]; simpl; [done|].
  destruct (case_keeps_marks ch c Hch) as [-> ->]. by rewrite IHl, IHu.
Qed.

Lemma has_char_case_subtags_guarded ch s :
  is_mark ch = true →
  has_char ch (case_subtags_guarded s) = has_char ch s.
Proof.
  intros Hch. unfold case_subtags_guarded.
  destruct (split_first "-" s) as [[a [|c b]]|] eqn:Hs; try done.
  apply split_first_app in Hs as ->.
  rewrite !has_char_app, !has_char_cons.
  destruct (has_char_map_case ch a Hch) as [-> _].
  destruct (has_char_map_case ch (c :: b) Hch) as [_ Hu].
  simpl in Hu. unfold has_char at 2. simpl. unfold has_char in Hu.
  by rewrite Hu.
Qed.

Lemma not_placeholder (value : std_string) :
  has_char "_" value || has_char "-" value
  || has_char "." value || has_char "@" value = true →
  bool_decide (value = lit "C") || bool_decide (value = lit "POSIX") = false.
Proof.
  intros Hmark. apply orb_false_iff.
  split; apply bool_decide_eq_false_2; intros ->; discriminate.
Qed.

(** Both strips together on a string whose annotation starts right after a
    prefix free of '.' and '@'. *)
Lemma strip_annotation p s :
  has_char "." p = false → has_char "@" p = false →
  is_annotation s = true →
  strip_suffix_at "@" (strip_suffix_at "." (p ++ s)) = p.
Proof.
  intros Hdot Hat Hs. rewrite strip_suffix_at_skip by done.
  destruct s as [|c s]; simpl.
  - rewrite app_nil_r. by apply strip_suffix_at_id.
  - simpl in Hs. destruct (Ascii.eqb c ".") eqn:Hc; simpl.
    + rewrite app_nil_r. by apply strip_suffix_at_id.
    + simpl in Hs. rewrite strip_suffix_at_skip by done. simpl.
      rewrite Hs. apply app_nil_r.
Qed.
End std_string_more.

(** *** The POSIX branch *)

(** The shape of the result when an annotation follows a part without
    marks: the part itself, lowercased exactly when the annotation has a
    hyphen (or underscore) with a character after it. *)
Lemma posix_normalize_annotated (p rest : std_string) (sep : ascii) :
  has_char "_" p = false → has_char "-" p = false →
  has_char "." p = false → has_char "@" p = false →
  sep = "."%char ∨ sep = "@"%char →
  posix_normalize (p ++ sep :: rest)
  = match split_first "-" (underscores_to_hyphens rest) with
    | Some (_, _ :: _) => map tolower p
    | _ => p
    end.
Proof.
  intros Hu Hh Hdot Hat Hsep.
  assert (Hann : is_annotation (sep :: underscores_to_hyphens rest) = true)
    by (destruct Hsep as [-> | ->]; reflexivity).
  assert (Hsepu : (if Ascii.eqb sep "_" then "-"%char else sep) = sep)
    by (destruct Hsep as [-> | ->]; reflexivity).
  assert (Hseph : has_char "-" (p ++ [sep]) = false).
  { rewrite has_char_app, Hh. destruct Hsep as [-> | ->]; reflexivity. }
  rewrite posix_normalize_guarded. unfold posix_normalize_guarded_spec.
  rewrite not_placeholder.
  2:{ rewrite !has_char_app, !has_char_cons.
      destruct Hsep as [-> | ->]; simpl; by rewrite !orb_true_r. }
  rewrite underscores_to_hyphens_app, (underscores_to_hyphens_id p Hu).
  change (underscores_to_hyphens (sep :: rest))
    with ((if Ascii.eqb sep "_" then "-"%char else sep)
          :: underscores_to_hyphens rest).
  rewrite Hsepu. unfold case_subtags_guarded.
  replace (p ++ sep :: underscores_to_hyphens rest)
    with ((p ++ [sep]) ++ underscores_to_hyphens rest)
    by by rewrite <- app_assoc.
  rewrite (split_first_skip _ _ _ Hseph).
  destruct (split_first "-" (underscores_to_hyphens rest)) as [[a [|c b]]|].
  - rewrite <- app_assoc. by apply strip_annotation.
  - rewrite map_app, map_app. simpl map at 2.
    replace (tolower sep) with sep by (destruct Hsep as [-> | ->]; reflexivity).
    rewrite <- !app_assoc.
    apply (strip_annotation (map tolower p) (sep :: _)).
    + destruct (has_char_map_case "." p eq_refl) as [-> _]. exact Hdot.
    + destruct (has_char_map_case "@" p eq_refl) as [-> _]. exact Hat.
    + destruct Hsep as [-> | ->]; reflexivity.
  - rewrite <- app_assoc. by apply strip_annotation.
Qed.

(** X11: whatever the value, the result of the POSIX rule has no
    underscore, no '.' and no '@'. *)
Theorem posix_normalize_has_no_marks (value : std_string) :
  has_char "_" (posix_normalize value) = false
  ∧ has_char "." (posix_normalize value) = false
  ∧ has_char "@" (posix_normalize value) = false.
Proof.
  rewrite posix_normalize_guarded. unfold posix_normalize_guarded_spec.
  destruct (bool_decide (value = lit "C") || bool_decide (value = lit "POSIX"));
    [by repeat split|].
  split; [|split].
  - do 2 apply strip_suffix_at_keeps_free.
    rewrite has_char_case_subtags_guarded by reflexivity.
    apply underscores_to_hyphens_free.
  - apply strip_suffix_at_keeps_free, strip_suffix_at_free.
  - apply strip_suffix_at_free.
Qed.

(** X12: a value made of a language part without marks, an underscore or
    hyphen, a non-empty region part without '.' and '@', and then nothing or
    an annotation, gives the lowercased language, a hyphen and the
    uppercased region (its underscores turned into hyphens). *)
Theorem posix_normalize_language_region
    (language region suffix : std_string) (sep : ascii) :
  has_char "_" language = false → has_char "-" language = false →
  has_char "." language = false → has_char "@" language = false →
  sep = "_"%char ∨ sep = "-"%char →
  region ≠ [] →
  has_char "." region = false → has_char "@" region = false →
  is_annotation suffix = true →
  posix_normalize (language ++ sep :: region ++ suffix)
  = map tolower language
    ++ "-"%char :: map toupper (underscores_to_hyphens region).
Proof.
  intros Hu Hh Hdot Hat Hsep Hregion Hrdot Hrat Hsuffix.
  rewrite posix_normalize_guarded. unfold posix_normalize_guarded_spec.
  rewrite not_placeholder.
  2:{ rewrite !has_char_app, !has_char_cons.
      destruct Hsep as [-> | ->]; simpl; by rewrite ?orb_true_r. }
  rewrite underscores_to_hyphens_app, (underscores_to_hyphens_id _ Hu).
  change (underscores_to_hyphens (sep :: region ++ suffix))
    with ((if Ascii.eqb sep "_" then "-"%char else sep)
          :: underscores_to_hyphens (region ++ suffix)).
  replace (if Ascii.eqb sep "_" then "-"%char else sep) with "-"%char
    by (destruct Hsep as [-> | ->]; reflexivity).
  unfold case_subtags_guarded. rewrite (split_first_here _ _ _ Hh).
  rewrite underscores_to_hyphens_app.
  destruct region as [|r region]; [done|].
  change (underscores_to_hyphens (r :: region) ++ underscores_to_hyphens suffix)
    with ((if Ascii.eqb r "_" then "-"%char else r)
          :: (underscores_to_hyphens region ++ underscores_to_hyphens suffix)).
  cbv iota beta.
  change ((if Ascii.eqb r "_" then "-"%char else r)
          :: (underscores_to_hyphens region ++ underscores_to_hyphens suffix))
    with (underscores_to_hyphens (r :: region) ++ underscores_to_hyphens suffix).
  rewrite map_app.
  replace (map tolower language
           ++ "-"%char :: map toupper (underscores_to_hyphens (r :: region))
                          ++ map toupper (underscores_to_hyphens suffix))
    with ((map tolower language
           ++ "-"%char :: map toupper (underscores_to_hyphens (r :: region)))
          ++ map toupper (underscores_to_hyphens suffix))
    by (rewrite <- app_assoc; reflexivity).
  apply strip_annotation.
  - rewrite has_char_app, has_char_cons.
    destruct (has_char_map_case "." language eq_refl) as [-> _].
    destruct (has_char_map_case "."
                (underscores_to_hyphens (r :: region)) eq_refl) as [_ ->].
    rewrite Hdot. change (Ascii.eqb "-" ".") with false.
    rewrite !orb_false_l. by apply underscores_to_hyphens_keeps.
  - rewrite has_char_app, has_char_cons.
    destruct (has_char_map_case "@" language eq_refl) as [-> _].
    destruct (has_char_map_case "@"
                (underscores_to_hyphens (r :: region)) eq_refl) as [_ ->].
    rewrite Hat. change (Ascii.eqb "-" "@") with false.
    rewrite !orb_false_l. by apply underscores_to_hyphens_keeps.
  - destruct suffix as [|c suffix]; [done|]. simpl in Hsuffix |- *.
    apply orb_true_iff in Hsuffix as [->%Ascii.eqb_eq | ->%Ascii.eqb_eq];
      reflexivity.
Qed.

(** X13: the placeholder test is made on the whole value: "C" or "POSIX"
    followed by an encoding or a modifier is not a placeholder, and the
    result is that name, as written or lowercased, never the fallback. *)
Theorem posix_normalize_annotated_placeholder
    (placeholder rest : std_string) (sep : ascii) :
  placeholder = lit "C" ∨ placeholder = lit "POSIX" →
  sep = "."%char ∨ sep = "@"%char →
  (posix_normalize (placeholder ++ sep :: rest) = placeholder
   ∨ posix_normalize (placeholder ++ sep :: rest) = map tolower placeholder)
  ∧ posix_normalize (placeholder ++ sep :: rest) ≠ DEFAULT_LANGUAGE.
Proof.
  intros Hp Hsep.
  assert (Hshape :
    posix_normalize (placeholder ++ sep :: rest)
    = match split_first "-" (underscores_to_hyphens rest) with
      | Some (_, _ :: _) => map tolower placeholder
      | _ => placeholder
      end).
  { apply posix_normalize_annotated; try done;
      destruct Hp as [-> | ->]; reflexivity. }
  rewrite Hshape.
  destruct (split_first "-" (underscores_to_hyphens rest)) as [[a [|c b]]|];
    (split; [auto|]); destruct Hp as [-> | ->]; discriminate.
Qed.

(** X14: a value that starts with '.' or '@' gives the empty string, not
    the fallback. *)
Theorem posix_normalize_empty_result (rest : std_string) (sep : ascii) :
  sep = "."%char ∨ sep = "@"%char →
  posix_normalize (sep :: rest) = [].
Proof.
  intros Hsep.
  pose proof (posix_normalize_annotated [] rest sep
                eq_refl eq_refl eq_refl eq_refl Hsep) as Hshape.
  simpl in Hshape. rewrite Hshape.
  by destruct (split_first "-" (underscores_to_hyphens rest)) as [[a [|c b]]|].
Qed.

(** X15: when no separator precedes the annotation, the case of the part
    before it depends on the annotation: it is lowercased exactly when the
    annotation has a hyphen or underscore followed by a character. *)
Theorem posix_normalize_case_depends_on_annotation
    (name rest : std_string) (sep : ascii) :
  has_char "_" name = false → has_char "-" name = false →
  has_char "." name = false → has_char "@" name = false →
  sep = "."%char ∨ sep = "@"%char →
  posix_normalize (name ++ sep :: rest)
  = match split_first "-" (underscores_to_hyphens rest) with
    | Some (_, _ :: _) => map tolower name
    | _ => name
    end.
Proof. apply posix_normalize_annotated. Qed.

(** X16: once a higher-priority variable is set and non-empty the lower
    ones are not read, even when its value is a placeholder: with LC_ALL
    set to "C" or "POSIX" the result is the fallback whatever LC_MESSAGES
    and LANG hold. *)
Theorem get_sys_lang_posix_placeholder_is_final (env : environment) :
  env "LC_ALL"%string = Some (lit "C")
  ∨ env "LC_ALL"%string = Some (lit "POSIX") →
  get_sys_lang_posix env = DEFAULT_LANGUAGE.
Proof.
  intros Hall. unfold get_sys_lang_posix, posix_env_value.
  destruct Hall as [-> | ->]; reflexivity.
Qed.

(** *** The Apple branch *)

Lemma count_char_app (ch : ascii) (a b : std_string) :
  count_char ch (a ++ b) = (count_char ch a + count_char ch b)%nat.
Proof. induction a as [|c a IH]; simpl; [reflexivity|]. rewrite IH. lia. Qed.

Lemma count_char_free (ch : ascii) (s : std_string) :
  has_char ch s = false → count_char ch s = O.
Proof.
  induction s as [|c s IH]; simpl; [done|].
  intros [Hc Hs]%orb_false_iff. by rewrite Hc, IH.
Qed.

(** What the Apple rule returns: no underscore, and either no hyphen or
    exactly two hyphen-free segments around one hyphen. *)
Lemma apple_normalize_shape (identifier : std_string) :
  has_char "_" (apple_normalize identifier) = false
  ∧ (has_char "-" (apple_normalize identifier) = false
     ∨ ∃ a b, apple_normalize identifier = a ++ "-"%char :: b
              ∧ has_char "-" a = false ∧ has_char "-" b = false).
Proof.
  rewrite apple_normalize_refines. unfold apple_normalize_spec. cbv zeta.
  pose proof (underscores_to_hyphens_free identifier) as Hfree.
  destruct (split_first "-" (underscores_to_hyphens identifier))
    as [[a rest]|] eqn:Hs.
  - pose proof (split_first_before _ _ _ _ Hs) as Ha.
    apply split_first_app in Hs. rewrite Hs in Hfree.
    rewrite has_char_app, has_char_cons in Hfree.
    apply orb_false_iff in Hfree as [Hfa [_ Hfrest]%orb_false_iff].
    destruct (split_first "-" rest) as [[b rest']|] eqn:Hrest.
    + pose proof (split_first_before _ _ _ _ Hrest) as Hb.
      apply split_first_app in Hrest. rewrite Hrest in Hfrest.
      rewrite has_char_app in Hfrest.
      apply orb_false_iff in Hfrest as [Hfb _].
      split.
      * rewrite has_char_app, has_char_cons, Hfa, Hfb. reflexivity.
      * right. by exists a, b.
    + apply split_first_None_has_char in Hrest. rewrite Hs. split.
      * rewrite has_char_app, has_char_cons, Hfa, Hfrest. reflexivity.
      * right. by exists a, rest.
  - apply split_first_None_has_char in Hs. split; [done|by left].
Qed.

(** X17: the Apple rule is idempotent: applied to its own result it
    changes nothing. *)
Theorem apple_normalize_idempotent (identifier : std_string) :
  apple_normalize (apple_normalize identifier) = apple_normalize identifier.
Proof.
  destruct (apple_normalize_shape identifier) as [Hu Hshape].
  generalize dependent (apple_normalize identifier). intros r Hu Hshape.
  rewrite apple_normalize_refines. unfold apple_normalize_spec. cbv zeta.
  rewrite (underscores_to_hyphens_id r Hu).
  destruct Hshape as [Hnone | (a & b & -> & Ha & Hb)].
  - apply split_first_None_has_char in Hnone. by rewrite Hnone.
  - rewrite (split_first_here _ _ _ Ha).
    apply split_first_None_has_char in Hb. by rewrite Hb.
Qed.

(** X18: the result of the Apple rule has no underscore and at most one
    hyphen. *)
Theorem apple_normalize_at_most_one_hyphen (identifier : std_string) :
  has_char "_" (apple_normalize identifier) = false
  ∧ (count_char "-" (apple_normalize identifier) ≤ 1)%nat.
Proof.
  destruct (apple_normalize_shape identifier) as [Hu Hshape].
  split; [exact Hu|].
  destruct Hshape as [Hnone | (a & b & -> & Ha & Hb)].
  - rewrite (count_char_free _ _ Hnone). lia.
  - rewrite count_char_app.
    change ("-"%char :: b) with (["-"%char] ++ b).
    rewrite count_char_app, (count_char_free _ _ Ha), (count_char_free _ _ Hb).
    reflexivity.
Qed.

(** X20: for an identifier whose first two segments are [first] and
    [second], the Apple rule returns them joined by a hyphen, in the case
    they were written in and with any '.' or '@' they contain; whatever
    follows the second segment is dropped. *)
Theorem apple_normalize_first_two_segments
    (first second tail : std_string) (sep : ascii) :
  has_char "_" first = false → has_char "-" first = false →
  has_char "_" second = false → has_char "-" second = false →
  sep = "_"%char ∨ sep = "-"%char →
  is_segment_end tail = true →
  apple_normalize (first ++ sep :: second ++ tail)
  = first ++ "-"%char :: second.
Proof.
  intros Hfu Hfh Hsu Hsh Hsep Htail.
  rewrite apple_normalize_refines. unfold apple_normalize_spec. cbv zeta.
  rewrite underscores_to_hyphens_app, (underscores_to_hyphens_id _ Hfu).
  change (underscores_to_hyphens (sep :: second ++ tail))
    with ((if Ascii.eqb sep "_" then "-"%char else sep)
          :: underscores_to_hyphens (second ++ tail)).
  replace (if Ascii.eqb sep "_" then "-"%char else sep) with "-"%char
    by (destruct Hsep as [-> | ->]; reflexivity).
  rewrite (split_first_here _ _ _ Hfh).
  rewrite underscores_to_hyphens_app, (underscores_to_hyphens_id _ Hsu).
  rewrite (split_first_skip _ _ _ Hsh).
  destruct tail as [|c tail]; simpl.
  - by rewrite app_nil_r.
  - simpl in Htail.
    apply orb_true_iff in Htail as [->%Ascii.eqb_eq | ->%Ascii.eqb_eq];
      simpl; by rewrite app_nil_r.
Qed.

(** *** The Windows branch *)

(** X19: when both system calls succeed and the conversion stored as many
    bytes as it reports, no more than the size asked for, the result is
    those bytes without the last one (the terminator): the name the system
    gave is returned as it is, with no normalization. *)
Theorem get_sys_lang_win32_verbatim (os : Win32) :
  GetUserDefaultLocaleName os ≠ 0 →
  0 < WideCharToMultiByte_written os →
  WideCharToMultiByte_written os ≤ WideCharToMultiByte_size os →
  length (WideCharToMultiByte_bytes os)
  = Z.to_nat (WideCharToMultiByte_written os) →
  get_sys_lang_win32 os
  = take (Z.to_nat (WideCharToMultiByte_written os - 1))
      (WideCharToMultiByte_bytes os).
Proof.
  intros Hname Hwritten Hsize Hlen. unfold get_sys_lang_win32.
  destruct (Z.eqb_spec (GetUserDefaultLocaleName os) 0); [done|].
  destruct (Z.leb_spec (WideCharToMultiByte_size os) 0); [lia|].
  destruct (Z.leb_spec (WideCharToMultiByte_written os) 0); [lia|].
  cbv zeta. rewrite repeat_length. unfold resize.
  set (bytes := WideCharToMultiByte_bytes os) in *.
  rewrite (take_ge bytes) by lia.
  rewrite take_app_le by lia.
  rewrite length_app.
  replace (Z.to_nat (WideCharToMultiByte_written os - 1)
           - (length bytes + _))%nat with O by lia.
  apply app_nil_r.
Qed.

(** ** The claims at concrete inputs *)

Import i18n_lang_default.

Lemma get_text_three_tier_witness :
  get_text hello_catalog (U "de-DE") 1%N = U "Hello"
  ∧ get_text hello_catalog (U "fr-FR") 1%N = U "Bonjour"
  ∧ get_text hello_catalog (U "fr-FR") 99%N = U "TEXT_NOT_FOUND".
Proof.
  unfold get_text.
  split; [|split].
  - rewrite (proj1 (get_text_three_tier DefaultErrorText_default
                      hello_catalog (U "de-DE") 1%N)).
    reflexivity.
  - rewrite (proj1 (get_text_three_tier DefaultErrorText_default
                      hello_catalog (U "fr-FR") 1%N)).
    reflexivity.
  - rewrite (proj1 (get_text_three_tier DefaultErrorText_default
                      hello_catalog (U "fr-FR") 99%N)).
    reflexivity.
Defined.

Lemma get_default_error_text_is_sentinel_witness :
  stored hello_catalog (U "fr-FR") 99%N = None
  ∧ stored hello_catalog (default_lang_ hello_catalog) 99%N = None
  ∧ get_text hello_catalog (U "fr-FR") 99%N = get_default_error_text.
Proof.
  split; [reflexivity|]. split; [reflexivity|].
  apply (proj2 (proj2 (get_default_error_text_is_sentinel
                         (LangType := u32string) (TextIdType := uint64_t)
                         DefaultErrorText_default)));
    reflexivity.
Defined.

Lemma default_lang_is_invariant_witness :
  is_Some (stored hello_catalog (U "en-US") 1%N)
  ∧ is_Some (stored
               (run DefaultErrorText_default
                  [SetText (U "en-US") 2%N (U "Bye");
                   SetTexts (U "en-US") {[1%N := U "Hi"]};
                   GetText (U "de-DE") 1%N]
                  hello_catalog)
               (U "en-US") 1%N).
Proof.
  split; [by eexists|].
  apply (proj2 (proj2 (proj2 (proj2 (proj2 (proj2
           (default_lang_is_invariant DefaultErrorText_default))))))).
  by eexists.
Defined.

Lemma get_text_is_pure_observer_witness :
  texts_ hello_catalog !! U "de-DE" = None
  ∧ texts_ (snd (get_text_method (U "de-DE") 1%N hello_catalog)) !! U "de-DE"
    = None.
Proof.
  split; [reflexivity|].
  apply (proj2 (proj2 (proj2 (proj2 (proj2
           (get_text_is_pure_observer DefaultErrorText_default
              hello_catalog (U "de-DE") 1%N)))))).
  reflexivity.
Defined.

Lemma get_sys_lang_posix_priority_witness :
  platform_of linux_target = Posix
  ∧ get_sys_lang linux_target
      (make_host win32_api_failure cf_conversion_failure env_lang_only)
    = lit "zh-CN".
Proof.
  split; [reflexivity|].
  rewrite (get_sys_lang_posix_priority linux_target
             (make_host win32_api_failure cf_conversion_failure env_lang_only)
             eq_refl).
  reflexivity.
Defined.

Lemma get_sys_lang_falls_back_witness :
  detection_fails windows_target
    (make_host win32_conversion_failure cf_zh_Hans_CN env_lang_only) = true
  ∧ get_sys_lang windows_target
      (make_host win32_conversion_failure cf_zh_Hans_CN env_lang_only)
    = lit "en-US".
Proof.
  split; [reflexivity|].
  apply (proj2 get_sys_lang_falls_back). reflexivity.
Defined.

(** ** Further runs of the model *)

Example get_text_fallback_before_translation :
  get_text (set_text (i18n_lang_ctor (U "en-US")) (U "en-US") 1%N (U "Hello"))
    (U "fr-FR") 1%N = U "Hello".
Proof. reflexivity. Qed.

Example set_texts_does_not_overwrite :
  get_text (set_texts hello_catalog (U "fr-FR")
              {[1%N := U "Salut"; 2%N := U "Merci"]}) (U "fr-FR") 1%N
    = U "Bonjour"
  ∧ get_text (set_texts hello_catalog (U "fr-FR")
                {[1%N := U "Salut"; 2%N := U "Merci"]}) (U "fr-FR") 2%N
    = U "Merci".
Proof. split; reflexivity. Qed.

Example set_text_overwrites :
  get_text (set_text hello_catalog (U "fr-FR") 1%N (U "Salut")) (U "fr-FR") 1%N
    = U "Salut".
Proof. reflexivity. Qed.

Example get_sys_lang_windows_verbatim :
  get_sys_lang windows_target
    (make_host win32_de_DE cf_zh_Hans_CN env_lang_only) = lit "de-DE".
Proof. reflexivity. Qed.

Example get_sys_lang_apple_script :
  get_sys_lang apple_target
    (make_host win32_de_DE cf_zh_Hans_CN env_lang_only) = lit "zh-Hans".
Proof. reflexivity. Qed.

Example get_sys_lang_failures :
  get_sys_lang windows_target
    (make_host win32_api_failure cf_zh_Hans_CN env_lang_only) = lit "en-US"
  ∧ get_sys_lang apple_target
      (make_host win32_de_DE cf_conversion_failure env_lang_only) = lit "en-US"
  ∧ get_sys_lang linux_target
      (make_host win32_de_DE cf_zh_Hans_CN env_unset) = lit "en-US"
  ∧ get_sys_lang linux_target
      (make_host win32_de_DE cf_zh_Hans_CN env_lc_all_C) = lit "en-US".
Proof. repeat split; reflexivity. Qed.

Example posix_normalize_without_region :
  posix_normalize (lit "EN") = lit "EN"
  ∧ posix_normalize (lit "EN.UTF-8") = lit "en"
  ∧ posix_normalize (lit "De_de.utf8@euro") = lit "de-DE".
Proof. repeat split; reflexivity. Qed.

Example apple_normalize_short :
  apple_normalize (lit "en_US") = lit "en-US"
  ∧ apple_normalize (lit "fr") = lit "fr".
Proof. split; reflexivity. Qed.

(** ** The further properties at concrete inputs *)

Lemma set_text_commutes_witness :
  (U "en-US", 1%N) ≠ (U "fr-FR", 1%N)
  ∧ set_text (set_text (i18n_lang_ctor (U "de-DE")) (U "en-US") 1%N (U "Hello"))
      (U "fr-FR") 1%N (U "Bonjour")
    = set_text
        (set_text (i18n_lang_ctor (U "de-DE")) (U "fr-FR") 1%N (U "Bonjour"))
        (U "en-US") 1%N (U "Hello").
Proof.
  assert (Hne : (U "en-US", 1%N) ≠ (U "fr-FR", 1%N)) by discriminate.
  split; [exact Hne|].
  exact (set_text_commutes (i18n_lang_ctor (U "de-DE"))
           (U "en-US") 1%N (U "Hello") (U "fr-FR") 1%N (U "Bonjour") Hne).
Defined.

Lemma set_text_default_reaches_all_witness :
  stored hello_catalog (U "de-DE") 2%N = None
  ∧ get_text
      (set_text hello_catalog (default_lang_ hello_catalog) 2%N (U "Bye"))
      (U "de-DE") 2%N = U "Bye".
Proof.
  split; [reflexivity|].
  exact (set_text_default_reaches_all DefaultErrorText_default
           hello_catalog (U "de-DE") 2%N (U "Bye") eq_refl).
Defined.

Lemma get_text_other_id_witness :
  2%N ≠ 1%N
  ∧ ({[3%N := U "Merci"]} : gmap uint64_t u32string) !! 1%N = None
  ∧ get_text (set_text hello_catalog (U "fr-FR") 2%N (U "Salut")) (U "fr-FR") 1%N
    = get_text hello_catalog (U "fr-FR") 1%N
  ∧ get_text (set_texts hello_catalog (U "fr-FR") {[3%N := U "Merci"]})
      (U "fr-FR") 1%N
    = get_text hello_catalog (U "fr-FR") 1%N.
Proof.
  assert (Hne : 2%N ≠ 1%N) by discriminate.
  split; [exact Hne|]. split; [reflexivity|].
  exact (get_text_other_id DefaultErrorText_default hello_catalog
           (U "fr-FR") 1%N (U "fr-FR") 2%N (U "Salut") {[3%N := U "Merci"]}
           Hne eq_refl).
Defined.

Lemma get_text_other_language_witness :
  U "de-DE" ≠ U "fr-FR"
  ∧ U "de-DE" ≠ default_lang_ hello_catalog
  ∧ get_text (set_text hello_catalog (U "de-DE") 1%N (U "Hallo")) (U "fr-FR") 1%N
    = get_text hello_catalog (U "fr-FR") 1%N
  ∧ get_text (set_texts hello_catalog (U "de-DE") {[1%N := U "Hallo"]})
      (U "fr-FR") 1%N
    = get_text hello_catalog (U "fr-FR") 1%N.
Proof.
  assert (Hl : U "de-DE" ≠ U "fr-FR") by discriminate.
  assert (Hd : U "de-DE" ≠ default_lang_ hello_catalog) by discriminate.
  split; [exact Hl|]. split; [exact Hd|].
  exact (get_text_other_language DefaultErrorText_default hello_catalog
           (U "fr-FR") 1%N (U "de-DE") 1%N (U "Hallo") {[1%N := U "Hallo"]}
           Hl Hd).
Defined.

Lemma set_texts_empty_witness :
  is_Some (texts_ hello_catalog !! U "fr-FR")
  ∧ set_texts hello_catalog (U "fr-FR") ∅ = hello_catalog.
Proof.
  assert (Hb : is_Some (texts_ hello_catalog !! U "fr-FR")) by (by eexists).
  split; [exact Hb|].
  exact (proj2 (proj2 (set_texts_empty DefaultErrorText_default
                         hello_catalog (U "fr-FR"))) Hb).
Defined.

Lemma stored_survives_bulk_inserts_witness :
  forallb (λ op, negb (is_set_text op))
    [SetTexts (U "fr-FR") {[1%N := U "Salut"; 2%N := U "Merci"]};
     GetText (U "fr-FR") 2%N;
     SetTexts (U "en-US") {[1%N := U "Hi"]}] = true
  ∧ stored hello_catalog (U "fr-FR") 1%N = Some (U "Bonjour")
  ∧ stored
      (run DefaultErrorText_default
         [SetTexts (U "fr-FR") {[1%N := U "Salut"; 2%N := U "Merci"]};
          GetText (U "fr-FR") 2%N;
          SetTexts (U "en-US") {[1%N := U "Hi"]}]
         hello_catalog)
      (U "fr-FR") 1%N = Some (U "Bonjour").
Proof.
  split; [reflexivity|]. split; [reflexivity|].
  exact (stored_survives_bulk_inserts DefaultErrorText_default
           [SetTexts (U "fr-FR") {[1%N := U "Salut"; 2%N := U "Merci"]};
            GetText (U "fr-FR") 2%N;
            SetTexts (U "en-US") {[1%N := U "Hi"]}]
           hello_catalog (U "fr-FR") 1%N (U "Bonjour") eq_refl eq_refl).
Defined.

Lemma texts_dom_after_write_witness :
  U "en-US" ≠ U "de-DE"
  ∧ texts_ (set_text hello_catalog (U "de-DE") 1%N (U "Hallo")) !! U "en-US"
    = texts_ hello_catalog !! U "en-US".
Proof.
  assert (Hne : U "en-US" ≠ U "de-DE") by discriminate.
  split; [exact Hne|].
  exact (proj1 (proj2 (proj2 (texts_dom_after_write hello_catalog
                                (U "de-DE") 1%N (U "Hallo") ∅))
                  (U "en-US") Hne)).
Defined.

Lemma posix_normalize_language_region_witness :
  lit "zh" ≠ [] ∧ lit "CN" ≠ []
  ∧ posix_normalize (lit "zh" ++ "_"%char :: lit "CN" ++ lit ".UTF-8")
    = lit "zh-CN".
Proof.
  split; [discriminate|]. split; [discriminate|].
  exact (posix_normalize_language_region (lit "zh") (lit "CN") (lit ".UTF-8")
           "_" eq_refl eq_refl eq_refl eq_refl (or_introl eq_refl)
           ltac:(discriminate) eq_refl eq_refl eq_refl).
Defined.

Lemma posix_normalize_annotated_placeholder_witness :
  posix_normalize (lit "C.UTF-8") ≠ DEFAULT_LANGUAGE.
Proof.
  exact (proj2 (posix_normalize_annotated_placeholder (lit "C") (lit "UTF-8")
                  "." (or_introl eq_refl) (or_introl eq_refl))).
Defined.

Lemma posix_normalize_empty_result_witness :
  posix_normalize (lit ".UTF-8") = [].
Proof.
  exact (posix_normalize_empty_result (lit "UTF-8") "." (or_introl eq_refl)).
Defined.

Lemma posix_normalize_case_depends_on_annotation_witness :
  posix_normalize (lit "EN.utf8") = lit "EN"
  ∧ posix_normalize (lit "EN.UTF-8") = lit "en".
Proof.
  split.
  - exact (posix_normalize_case_depends_on_annotation (lit "EN") (lit "utf8")
             "." eq_refl eq_refl eq_refl eq_refl (or_introl eq_refl)).
  - exact (posix_normalize_case_depends_on_annotation (lit "EN") (lit "UTF-8")
             "." eq_refl eq_refl eq_refl eq_refl (or_introl eq_refl)).
Defined.

Lemma get_sys_lang_posix_placeholder_is_final_witness :
  env_lc_all_C "LC_ALL"%string = Some (lit "C")
  ∧ env_lc_all_C "LANG"%string = Some (lit "fr_FR@euro")
  ∧ get_sys_lang_posix env_lc_all_C = DEFAULT_LANGUAGE.
Proof.
  split; [reflexivity|]. split; [reflexivity|].
  exact (get_sys_lang_posix_placeholder_is_final env_lc_all_C
           (or_introl eq_refl)).
Defined.

Lemma get_sys_lang_win32_verbatim_witness :
  GetUserDefaultLocaleName win32_de_DE ≠ 0
  ∧ 0 < WideCharToMultiByte_written win32_de_DE
  ∧ WideCharToMultiByte_written win32_de_DE ≤ WideCharToMultiByte_size win32_de_DE
  ∧ get_sys_lang_win32 win32_de_DE = lit "de-DE".
Proof.
  assert (Hname : GetUserDefaultLocaleName win32_de_DE ≠ 0) by discriminate.
  assert (Hwritten : 0 < WideCharToMultiByte_written win32_de_DE)
    by reflexivity.
  assert (Hsize : WideCharToMultiByte_written win32_de_DE
                  ≤ WideCharToMultiByte_size win32_de_DE)
    by (simpl; lia).
  split; [exact Hname|]. split; [exact Hwritten|]. split; [exact Hsize|].
  exact (get_sys_lang_win32_verbatim win32_de_DE Hname Hwritten Hsize eq_refl).
Defined.

Lemma apple_normalize_first_two_segments_witness :
  apple_normalize (lit "en" ++ "_"%char :: lit "US@calendar=japanese" ++ [])
  = lit "en-US@calendar=japanese"
  ∧ apple_normalize (lit "zh" ++ "_"%char :: lit "Hans" ++ lit "_CN")
    = lit "zh-Hans".
Proof.
  split.
  - exact (apple_normalize_first_two_segments (lit "en")
             (lit "US@calendar=japanese") [] "_"
             eq_refl eq_refl eq_refl eq_refl (or_introl eq_refl) eq_refl).
  - exact (apple_normalize_first_two_segments (lit "zh") (lit "Hans")
             (lit "_CN") "_"
             eq_refl eq_refl eq_refl eq_refl (or_introl eq_refl) eq_refl).
Defined.
